(** * The degree-preserving rewiring engine of [src/rewire_network.py]

    A shallow embedding of the configuration-model generator
    ([limited_random_choice], [rewire_network], [generate_networks]) and of
    the graph conversions ([convert_to_graph],
    [convert_weighted_to_multigraph]), with the properties the specification
    states about them.

    Python integers are [Z]; a Python [dict] is an insertion-ordered
    association list with unique keys; the module-level random generator is
    an explicit state threaded through every call. *)

From stdpp Require Import base decidable option list numbers strings pretty sorting.

Open Scope Z_scope.

(** ** Exceptions and outcomes *)

Inductive exn : Set := ValueError | IndexError | KeyError.

(** What a call does: it returns a value, raises, or (in the model only)
    uses up the fuel of a loop. *)
Inductive outcome (A : Type) : Type :=
| Ret (a : A)
| Raise (e : exn)
| OutOfFuel.
Arguments Ret {A} a.
Arguments Raise {A} e.
Arguments OutOfFuel {A}.

(** ** Insertion-ordered dictionaries *)

Module Dict.

(** The items, in insertion order. *)
Abbreviation t K V := (list (K * V)).

Section Dict.
Context {K V : Type} `{EqDecision K}.

Local Abbreviation t := (Dict.t K V).

(** [d[k]], [None] standing for the [KeyError]. *)
Fixpoint get (k : K) (d : t) : option V :=
  match d with
  | [] => None
  | (k', v) :: d' => if decide (k = k') then Some v else get k d'
  end.

(** [k in d] *)
Definition mem (k : K) (d : t) : bool :=
  match get k d with Some _ => true | None => false end.

(** [d[k] = v]: an existing key keeps its position, a new one goes last. *)
Fixpoint set (k : K) (v : V) (d : t) : t :=
  match d with
  | [] => [(k, v)]
  | (k', v') :: d' =>
      if decide (k = k') then (k', v) :: d' else (k', v') :: set k v d'
  end.

(** [del d[k]] *)
Fixpoint remove (k : K) (d : t) : t :=
  match d with
  | [] => []
  | (k', v') :: d' =>
      if decide (k = k') then remove k d' else (k', v') :: remove k d'
  end.

(** [d.pop(k)]: the value and the dictionary without the key. *)
Definition pop (k : K) (d : t) : option (V * t) :=
  match get k d with
  | Some v => Some (v, remove k d)
  | None => None
  end.

(** [list(d.keys())], [list(d.values())] *)
Definition keys (d : t) : list K := map fst d.
Definition values (d : t) : list V := map snd d.

(** [list(d)[-1]] *)
Definition last_key (d : t) : option K := last (keys d).
End Dict.
End Dict.

(** [sum(xs)] over Python integers. *)
Definition sum_Z (xs : list Z) : Z := foldr Z.add 0 xs.

(** ** The shared random stream

    [random.seed(a)] replaces the state by one that depends on [a] only;
    [random.choice(seq)] draws an index below [len(seq)] and advances the
    state. *)

Class Random (G : Type) := {
  random_seed : Z -> G;
  randbelow : nat -> G -> nat * G;
  randbelow_lt : forall n g, (0 < n)%nat -> ((randbelow n g).1 < n)%nat
}.

Section Rewiring.
Context {K : Type} `{EqDecision K}.
Context {G : Type} `{Random G}.

Local Abbreviation edge := (K * K)%type.
Local Abbreviation degrees := (Dict.t K Z).

(** [random.choice(a)]; an empty sequence raises [IndexError]. *)
Definition choice (a : list K) (g : G) : outcome K * G :=
  match a with
  | [] => (Raise IndexError, g)
  | _ :: _ =>
      let '(i, g') := randbelow (length a) g in
      match a !! i with
      | Some s => (Ret s, g')
      | None => (Raise IndexError, g')
      end
  end.

(** [if seed: random.seed(seed)]: [None] and [0] are both falsy. *)
Definition seed_if_truthy (seed : option Z) (g : G) : G :=
  match seed with
  | Some s => if decide (s = 0) then g else random_seed s
  | None => g
  end.

(** *** [limited_random_choice] *)

Definition default_threshold : Z := 1000000.

(** The [while sum(counter.values()) < n] loop. *)
Fixpoint lrc_loop (fuel : nat) (a : list K) (n : Z) (limits : degrees)
    (threshold : Z) (k : Z) (counter : degrees) (result : list K)
    (miss : Z) (g : G)
  : outcome (option (list K * degrees * Z)) * G :=
  if decide (sum_Z (Dict.values counter) < n) then
    match fuel with
    | O => (OutOfFuel, g)
    | S fuel' =>
        let k := k + 1 in
        if decide (k = threshold) then (Ret None, g)
        else
          match choice a g with
          | (Ret s, g') =>
              match Dict.get s counter with
              | None =>
                  lrc_loop fuel' a n limits threshold k
                    (Dict.set s 1 counter) (result ++ [s]) miss g'
              | Some c =>
                  match Dict.get s limits with
                  | None => (Raise KeyError, g')
                  | Some lim =>
                      if decide (c < lim) then
                        lrc_loop fuel' a n limits threshold k
                          (Dict.set s (c + 1) counter) (result ++ [s])
                          miss g'
                      else
                        lrc_loop fuel' a n limits threshold k
                          counter result (miss + 1) g'
                  end
              end
          | (Raise e, g') => (Raise e, g')
          | (OutOfFuel, g') => (OutOfFuel, g')
          end
    end
  else (Ret (Some (result, counter, miss)), g).

(** [None] is the sampler's exhausted outcome; [ValueError] is raised when
    [n] exceeds the sum of the limits.  The loop makes fewer than
    [threshold] draws, so [threshold] is enough fuel. *)
Definition limited_random_choice (a : list K) (n : Z) (limits : degrees)
    (seed : option Z) (threshold : Z) (g : G)
  : outcome (option (list K * degrees * Z)) * G :=
  if decide (n > sum_Z (Dict.values limits)) then (Raise ValueError, g)
  else
    let g := seed_if_truthy seed g in
    lrc_loop (Z.to_nat threshold) a n limits threshold 0 [] [] 0 g.

(** *** [rewire_network] *)

(** [{k: v for k, v in d.items() if v > 0}] *)
Definition positive_items (d : degrees) : degrees :=
  filter (fun p => 0 < p.2) d.

(** [sorted(d.items(), key=lambda x: x[1])]: stable, ascending. *)
Fixpoint insert_by_value (p : K * Z) (l : degrees) : degrees :=
  match l with
  | [] => [p]
  | q :: l' =>
      if decide (p.2 <= q.2) then p :: q :: l'
      else q :: insert_by_value p l'
  end.

Definition sorted_by_value (d : degrees) : degrees :=
  foldr insert_by_value [] d.

(** [for i in iter: res.append((q0, i)); req[i] -= 1] *)
Fixpoint assign_stubs (q0 : K) (iter : list K) (res : list edge)
    (req : degrees) : outcome (list edge * degrees) :=
  match iter with
  | [] => Ret (res, req)
  | i :: iter' =>
      match Dict.get i req with
      | Some v => assign_stubs q0 iter' (res ++ [(q0, i)]) (Dict.set i (v - 1) req)
      | None => Raise KeyError
      end
  end.

(** The value of [rewire_network]: an edge list or [np.NaN]. *)
Inductive rewired : Type :=
| Edges (res : list edge)
| NaN.

(** The [while len({... if v > 0}) > 0] loop.  Every round pops one key,
    so the number of keys is enough fuel. *)
Fixpoint rewire_loop (fuel : nat) (seed : option Z) (req : degrees)
    (res : list edge) (g : G) : outcome rewired * G :=
  if decide (0 < length (positive_items req))%nat then
    match fuel with
    | O => (OutOfFuel, g)
    | S fuel' =>
        let req := sorted_by_value req in
        let req := positive_items req in
        match Dict.last_key req with
        | None => (Raise IndexError, g)
        | Some q0 =>
            match Dict.pop q0 req with
            | None => (Raise KeyError, g)
            | Some (q1, req) =>
                match limited_random_choice (Dict.keys req) q1 req seed
                        default_threshold g with
                | (Ret None, g') => rewire_loop fuel' seed req res g'
                | (Ret (Some (iter, _, _)), g') =>
                    match assign_stubs q0 iter res req with
                    | Ret (res, req) => rewire_loop fuel' seed req res g'
                    | Raise ValueError => (Ret NaN, g')
                    | Raise e => (Raise e, g')
                    | OutOfFuel => (OutOfFuel, g')
                    end
                | (Raise ValueError, g') => (Ret NaN, g')
                | (Raise e, g') => (Raise e, g')
                | (OutOfFuel, g') => (OutOfFuel, g')
                end
            end
        end
    end
  else (Ret (Edges res), g).

(** The [threshold] argument is accepted and never used. *)
Definition rewire_network (g : degrees) (seed : option Z) (threshold : Z)
    (rng : G) : outcome rewired * G :=
  let req := positive_items g in
  rewire_loop (length req) seed req [] rng.

(** *** [generate_networks] *)

Definition default_rewire_threshold : Z := 10000.
Definition default_infinite_loop_threshold : Z := 10000.

(** The [while len(results) < n] loop; [None] is the exhausted outcome. *)
Fixpoint generate_loop (fuel : nat) (g : degrees) (n : Z)
    (infinite_loop_threshold : Z) (k : Z) (results : list (list edge))
    (rng : G) : outcome (option (list (list edge))) * G :=
  if decide (Z.of_nat (length results) < n) then
    match fuel with
    | O => (OutOfFuel, rng)
    | S fuel' =>
        match rewire_network g None default_rewire_threshold rng with
        | (Ret r, rng') =>
            let results :=
              match r with
              | Edges res => results ++ [res]
              | NaN => results
              end in
            let k := k + 1 in
            if decide (k = infinite_loop_threshold) then (Ret None, rng')
            else generate_loop fuel' g n infinite_loop_threshold k results rng'
        | (Raise e, rng') => (Raise e, rng')
        | (OutOfFuel, rng') => (OutOfFuel, rng')
        end
    end
  else (Ret (Some results), rng).

Definition generate_networks (g : degrees) (n : Z) (seed : option Z)
    (infinite_loop_threshold : Z) (rng : G)
  : outcome (option (list (list edge))) * G :=
  let rng := seed_if_truthy seed rng in
  generate_loop (Z.to_nat infinite_loop_threshold) g n
    infinite_loop_threshold 0 [] rng.

(** The degree of a node in an edge list: both endpoints of every edge
    count. *)
Definition degree_of (x : K) (es : list edge) : Z :=
  sum_Z (map (fun e : edge =>
                (if decide (e.1 = x) then 1 else 0) +
                (if decide (e.2 = x) then 1 else 0)) es).

(** The hubs whose round ended with the sampler's [None], in a run of the
    loop: the same rounds as [rewire_loop], keeping the hubs of the rounds
    that took the [continue]. *)
Fixpoint dropped_hubs (fuel : nat) (seed : option Z) (req : degrees)
    (g : G) : list K :=
  if decide (0 < length (positive_items req))%nat then
    match fuel with
    | O => []
    | S fuel' =>
        let req := positive_items (sorted_by_value req) in
        match Dict.last_key req with
        | None => []
        | Some q0 =>
            match Dict.pop q0 req with
            | None => []
            | Some (q1, req) =>
                match limited_random_choice (Dict.keys req) q1 req seed
                        default_threshold g with
                | (Ret None, g') => q0 :: dropped_hubs fuel' seed req g'
                | (Ret (Some (iter, _, _)), g') =>
                    match assign_stubs q0 iter [] req with
                    | Ret (_, req) => dropped_hubs fuel' seed req g'
                    | _ => []
                    end
                | _ => []
                end
            end
        end
    end
  else [].

Definition exhausted_hubs (g : degrees) (seed : option Z) (rng : G)
  : list K :=
  let req := positive_items g in
  dropped_hubs (length req) seed req rng.

(** How many times a key occurs in a selection. *)
Definition occurrences (s : K) (l : list K) : Z :=
  Z.of_nat (length (filter (fun x => x = s) l)).

(** The loop invariant: the counter counts the selections made so far,
    and no count is above its limit. *)
Definition counted (limits counter : Dict.t K Z) (result : list K) : Prop :=
  (forall s, default 0 (Dict.get s counter) = occurrences s result) /\
  sum_Z (Dict.values counter) = Z.of_nat (length result) /\
  (forall s c lim,
      Dict.get s counter = Some c -> Dict.get s limits = Some lim -> c <= lim).

End Rewiring.

(** ** The same functions over a store of dictionary objects

    A Python variable of dictionary type holds a reference; two variables
    may hold the same one.  Here every dictionary lives in a store, a
    reference is an index into it, a dictionary display or [dict(...)]
    allocates, and [d.pop(k)] and [d[k] = v] write through the reference. *)

Section Store.
Context {K : Type} `{EqDecision K}.
Context {G : Type} `{Random G}.

Local Abbreviation edge := (K * K)%type.
Local Abbreviation degrees := (Dict.t K Z).

Definition store : Type := list degrees.
Definition ref : Type := nat.

(** Computations over the store and the random stream. *)
Definition M (A : Type) : Type := store -> G -> outcome A * store * G.

#[global] Instance M_ret : MRet M := fun A a h g => (Ret a, h, g).

#[global] Instance M_bind : MBind M := fun A B f m h g =>
  match m h g with
  | (Ret a, h', g') => f a h' g'
  | (Raise e, h', g') => (Raise e, h', g')
  | (OutOfFuel, h', g') => (OutOfFuel, h', g')
  end.

Definition raise {A} (e : exn) : M A := fun h g => (Raise e, h, g).
Definition out_of_fuel {A} : M A := fun h g => (OutOfFuel, h, g).

(** A new dictionary object. *)
Definition alloc (d : degrees) : M ref :=
  fun h g => (Ret (length h), h ++ [d], g).

(** The dictionary a reference points to. *)
Definition deref (h : store) (r : ref) : degrees := default [] (h !! r).

Definition load (r : ref) : M degrees :=
  fun h g => (Ret (deref h r), h, g).

(** Overwrite the object a reference points to. *)
Definition store_at (r : ref) (d : degrees) : M unit :=
  fun h g => (Ret tt, <[r:=d]> h, g).

Definition draw (a : list K) : M K :=
  fun h g => let '(o, g') := choice a g in (o, h, g').

Definition reseed (seed : option Z) : M unit :=
  fun h g => (Ret tt, h, seed_if_truthy seed g).

(** [try: m except ValueError: handler] *)
Definition except_ValueError {A} (m handler : M A) : M A :=
  fun h g =>
    match m h g with
    | (Raise ValueError, h', g') => handler h' g'
    | r => r
    end.

(** [limited_random_choice]: [limits] is the caller's object, [counter] a
    new one. *)
Fixpoint lrc_loop_st (fuel : nat) (a : list K) (n : Z) (limits : ref)
    (threshold : Z) (k : Z) (counter : ref) (result : list K) (miss : Z)
  : M (option (list K * ref * Z)) :=
  c ← load counter;
  if decide (sum_Z (Dict.values c) < n) then
    match fuel with
    | O => out_of_fuel
    | S fuel' =>
        let k := k + 1 in
        if decide (k = threshold) then mret None
        else
          s ← draw a;
          c ← load counter;
          match Dict.get s c with
          | None =>
              store_at counter (Dict.set s 1 c);;
              lrc_loop_st fuel' a n limits threshold k counter
                (result ++ [s]) miss
          | Some cs =>
              l ← load limits;
              match Dict.get s l with
              | None => raise KeyError
              | Some lim =>
                  if decide (cs < lim) then
                    store_at counter (Dict.set s (cs + 1) c);;
                    lrc_loop_st fuel' a n limits threshold k counter
                      (result ++ [s]) miss
                  else
                    lrc_loop_st fuel' a n limits threshold k counter
                      result (miss + 1)
              end
          end
    end
  else mret (Some (result, counter, miss)).

Definition limited_random_choice_st (a : list K) (n : Z) (limits : ref)
    (seed : option Z) (threshold : Z) : M (option (list K * ref * Z)) :=
  l ← load limits;
  if decide (n > sum_Z (Dict.values l)) then raise ValueError
  else
    counter ← alloc [];
    reseed seed;;
    lrc_loop_st (Z.to_nat threshold) a n limits threshold 0 counter [] 0.

(** [for i in iter: res.append((q0, i)); req[i] -= 1] *)
Fixpoint assign_stubs_st (q0 : K) (iter : list K) (res : list edge)
    (req : ref) : M (list edge) :=
  match iter with
  | [] => mret res
  | i :: iter' =>
      d ← load req;
      match Dict.get i d with
      | Some v =>
          store_at req (Dict.set i (v - 1) d);;
          assign_stubs_st q0 iter' (res ++ [(q0, i)]) req
      | None => raise KeyError
      end
  end.

(** [rewire_network]: the variable [req] is rebound to a new object by
    every display and by [dict(req)]; [pop] and [req[i] -= 1] write to the
    object [req] holds at that point.  The [try] block of a round ends
    with the edges so far ([continue] and the end of the block both go on
    to the next round) or, in the handler, with [None] for
    [return np.NaN]. *)
Fixpoint rewire_loop_st (fuel : nat) (seed : option Z) (req : ref)
    (res : list edge) : M rewired :=
  d ← load req;
  if decide (0 < length (positive_items d))%nat then
    match fuel with
    | O => out_of_fuel
    | S fuel' =>
        d ← load req;
        req ← alloc (sorted_by_value d);
        d ← load req;
        req ← alloc (positive_items d);
        d ← load req;
        match Dict.last_key d with
        | None => raise IndexError
        | Some q0 =>
            d ← load req;
            match Dict.pop q0 d with
            | None => raise KeyError
            | Some (q1, d') =>
                store_at req d';;
                d ← load req;
                req ← alloc d;
                round ←
                  except_ValueError
                    (d ← load req;
                     lrc ← limited_random_choice_st (Dict.keys d) q1 req
                             seed default_threshold;
                     match lrc with
                     | None => mret (Some res)
                     | Some (iter, _, _) =>
                         res ← assign_stubs_st q0 iter res req;
                         mret (Some res)
                     end)
                    (mret None);
                match round with
                | Some res => rewire_loop_st fuel' seed req res
                | None => mret NaN
                end
            end
        end
    end
  else mret (Edges res).

Definition rewire_network_st (g : ref) (seed : option Z) (threshold : Z)
  : M rewired :=
  d ← load g;
  req ← alloc (positive_items d);
  d ← load req;
  rewire_loop_st (length d) seed req [].

Fixpoint generate_loop_st (fuel : nat) (g : ref) (n : Z)
    (infinite_loop_threshold : Z) (k : Z) (results : list (list edge))
  : M (option (list (list edge))) :=
  if decide (Z.of_nat (length results) < n) then
    match fuel with
    | O => out_of_fuel
    | S fuel' =>
        r ← rewire_network_st g None default_rewire_threshold;
        let results :=
          match r with
          | Edges res => results ++ [res]
          | NaN => results
          end in
        let k := k + 1 in
        if decide (k = infinite_loop_threshold) then mret None
        else generate_loop_st fuel' g n infinite_loop_threshold k results
    end
  else mret (Some results).

Definition generate_networks_st (g : ref) (n : Z) (seed : option Z)
    (infinite_loop_threshold : Z) : M (option (list (list edge))) :=
  reseed seed;;
  generate_loop_st (Z.to_nat infinite_loop_threshold) g n
    infinite_loop_threshold 0 [].

(** An outcome seen through a function on its value. *)
Definition outcome_map {A B} (f : A -> B) (o : outcome A) : outcome B :=
  match o with
  | Ret a => Ret (f a)
  | Raise e => Raise e
  | OutOfFuel => OutOfFuel
  end.

(** The sampler's result with the counter as a reference. *)
Definition counter_at (counter : ref)
    (o : outcome (option (list K * degrees * Z)))
  : outcome (option (list K * ref * Z)) :=
  outcome_map (option_map (fun x : list K * degrees * Z =>
                             (x.1.1, counter, x.2))) o.

End Store.

(** ** Graph conversions

    [convert_to_graph] goes through a pandas data frame and
    [nx.from_pandas_edgelist]; [convert_weighted_to_multigraph] reads
    [g.edges(data=True)].  The data frame is its list of rows, a
    [networkx.Graph] is its adjacency dictionary (node to neighbour to
    weight, both levels in insertion order), and the resulting multigraph
    is the list of edges added to it. *)

Section Codec.
Context {K : Type} `{EqDecision K}.

(** The order by which pandas sorts node identifiers. *)
Context (K_leb : K -> K -> bool).

Local Abbreviation edge := (K * K)%type.

(** [groupby(["source", "target"]).count()]: one row per distinct
    (source, target) pair, holding the number of rows of its group. *)
Definition count_rows (edgelist : list edge) : Dict.t edge Z :=
  foldl (fun rows e => Dict.set e (default 0 (Dict.get e rows) + 1) rows)
        [] edgelist.

(** The groups come out sorted by key, source first. *)
Definition edge_leb (e1 e2 : edge) : bool :=
  if decide (e1.1 = e2.1) then K_leb e1.2 e2.2 else K_leb e1.1 e2.1.

Fixpoint insert_by_key (r : edge * Z) (rows : Dict.t edge Z) : Dict.t edge Z :=
  match rows with
  | [] => [r]
  | q :: rows' =>
      if edge_leb r.1 q.1 then r :: q :: rows'
      else q :: insert_by_key r rows'
  end.

Definition groupby_count (edgelist : list edge) : Dict.t edge Z :=
  foldr insert_by_key [] (count_rows edgelist).

(** The adjacency of an undirected [networkx.Graph]. *)
Definition graph : Type := Dict.t K (Dict.t K Z).

Definition add_node (u : K) (g : graph) : graph :=
  if Dict.mem u g then g else Dict.set u [] g.

(** [self._adj[u][v] = datadict] *)
Definition set_adj (u v : K) (w : Z) (g : graph) : graph :=
  match Dict.get u g with
  | Some nbrs => Dict.set u (Dict.set v w nbrs) g
  | None => g
  end.

(** [g.add_edge(s, t); g[s][t].update(weight=w)]: the attributes of an
    edge are one object shared by both directions, so a pair met again,
    in either orientation, has its weight overwritten. *)
Definition add_weighted_edge (g : graph) (row : edge * Z) : graph :=
  let u := row.1.1 in
  let v := row.1.2 in
  set_adj v u row.2 (set_adj u v row.2 (add_node v (add_node u g))).

Definition from_pandas_edgelist (rows : Dict.t edge Z) : graph :=
  foldl add_weighted_edge [] rows.

Definition convert_to_graph (edgelist : list edge) : graph :=
  from_pandas_edgelist (groupby_count edgelist).

(** [g.edges(data=True)]: node by node, every neighbour that is not an
    already visited node. *)
Fixpoint edges_data (adj : graph) (seen : list K) : list (edge * Z) :=
  match adj with
  | [] => []
  | (n, nbrs) :: adj' =>
      map (fun p : K * Z => ((n, p.1), p.2))
          (filter (fun p : K * Z => p.1 ∉ seen) nbrs)
      ++ edges_data adj' (n :: seen)
  end.

(** [for i in g.edges(data=True): for _ in range(i[2]["weight"]): ...] *)
Definition convert_weighted_to_multigraph (g : graph) : list edge :=
  flat_map (fun r : edge * Z => replicate (Z.to_nat r.2) r.1)
           (edges_data g []).

(** How many edges of a list join [u] and [v], in either orientation. *)
Definition multiplicity (u v : K) (es : list edge) : nat :=
  length (filter (fun e : edge => e = (u, v) \/ e = (v, u)) es).

(** No two distinct nodes are joined in both orientations. *)
Definition one_way (es : list edge) : Prop :=
  Forall (fun e : edge => (e.2, e.1) ∈ es -> e.1 = e.2) es.

(** The weight a graph holds for the pair [u], [v], read from [u]'s side. *)
Definition adj (g : graph) (u v : K) : option Z :=
  Dict.get u g ≫= Dict.get v.

(** What the construction keeps true of an adjacency: nodes and
    neighbours are listed once, and both sides of a pair agree. *)
Definition graph_ok (g : graph) : Prop :=
  NoDup (Dict.keys g) /\
  (forall n nbrs, (n, nbrs) ∈ g -> NoDup (Dict.keys nbrs)) /\
  (forall u v, adj g u v = adj g v u).

(** The total weight of the rows that join [u] and [v]. *)
Definition weight_of (u v : K) (rows : list (edge * Z)) : nat :=
  sum_list_with (fun r : edge * Z =>
                   if decide (r.1 = (u, v) \/ r.1 = (v, u))
                   then Z.to_nat r.2 else 0%nat) rows.

End Codec.

(** ** A scripted random stream

    The state is the list of raw draws still to come; a draw below [n] is
    the next raw draw modulo [n], and [0] once the script is used up.
    Seeding installs a one-draw script made from the seed. *)

#[export] Instance scripted : Random (list nat) := {|
  random_seed z := [Z.abs_nat z];
  randbelow n g :=
    match g with
    | [] => (0%nat, [])
    | x :: g' => ((x mod n)%nat, g')
    end;
  randbelow_lt n g :=
    match g with
    | [] => fun Hn => Hn
    | x :: g' => fun Hn => Nat.mod_upper_bound x n (Nat.neq_sym 0 n (Nat.lt_neq 0 n Hn))
    end
|}.

(** Node identifiers of the examples are strings, as in the doctests. *)
Definition abc : Dict.t string Z :=
  [("a"%string, 3); ("b"%string, 2); ("c"%string, 1)].

(** A degree sequence whose hub can be served by the two other nodes. *)
Definition hub2 : Dict.t string Z :=
  [("a"%string, 2); ("b"%string, 1); ("c"%string, 1)].

(** Two nodes with one stub each: every attempt succeeds. *)
Definition pair11 : Dict.t string Z := [("a"%string, 1); ("b"%string, 1)].


(** Scenario A of the specification: a hub that cannot be served. *)
Definition star3 : Dict.t string Z :=
  [("a"%string, 3); ("b"%string, 1); ("c"%string, 1)].

(** The instance of Scenario B. *)
Definition abc_instance : list (string * string) :=
  [("a", "b"); ("a", "b"); ("a", "c")]%string.
(** ** Degrees of a multigraph, and the diagram text

    [generate_networks_from_graph] reads [dict(g.degree())] off a
    [networkx.MultiGraph]; [to_d2] counts the edges with
    [collections.Counter] and writes one line per distinct edge.  A
    multigraph is the list of its edges in the order they were added, as
    for [convert_weighted_to_multigraph]. *)

Section MultiGraph.
Context {K : Type} `{EqDecision K}.
Context {G : Type} `{Random G}.

Local Abbreviation edge := (K * K)%type.

(** One more edge end at [x]; a node is listed when its first edge is
    added. *)
Definition bump (x : K) (d : Dict.t K Z) : Dict.t K Z :=
  Dict.set x (default 0 (Dict.get x d) + 1) d.

(** [dict(g.degree())]: nodes in the order they were added, every edge
    counted at both of its ends (a self-loop twice). *)
Definition multigraph_degree (g : list edge) : Dict.t K Z :=
  foldl (fun d (e : edge) => bump e.2 (bump e.1 d)) [] g.

Definition generate_networks_from_graph (g : list edge) (n : Z)
    (seed : option Z) (infinite_loop_threshold : Z) (rng : G)
  : outcome (option (list (list edge))) * G :=
  let degrees := multigraph_degree g in
  generate_networks degrees n seed infinite_loop_threshold rng.

End MultiGraph.

Section Diagram.
Context {K : Type} `{EqDecision K}.

(** How a node is formatted in an f-string. *)
Context (str : K -> string).

Local Abbreviation edge := (K * K)%type.

(** [Counter(xs)]: the distinct elements in the order of their first
    occurrence, each with the number of its occurrences. *)
Definition Counter (xs : list edge) : Dict.t edge Z :=
  foldl (fun c x => Dict.set x (default 0 (Dict.get x c) + 1) c) [] xs.

Definition newline : string := String (Ascii.ascii_of_nat 10) "".

(** The [for edge, weight in Counter(edgelist).items()] loop of [to_d2]. *)
Definition to_d2_items (items : Dict.t edge Z) (result : string) : string :=
  foldl (fun (result : string) (item : edge * Z) =>
           let edge := item.1 in
           let weight := item.2 in
           if decide (weight = 1) then
             result +:+ (str edge.1 +:+ " -- " +:+ str edge.2 +:+ newline)
           else
             (result
              +:+ (str edge.1 +:+ " -- " +:+ str edge.2 +:+ " : "
                   +:+ pretty weight))
             +:+ (" {style: {font-size: 24; bold: true}}" +:+ newline))
        result items.

Definition to_d2 (edgelist : list edge) (horizontal : bool) : string :=
  let result := ""%string in
  let result :=
    if horizontal
    then result +:+ ("direction: right" +:+ newline +:+ newline)
    else result in
  to_d2_items (Counter edgelist) result.

(** The line of an edge that occurs once. *)
Definition plain_line (e : edge) : string :=
  str e.1 +:+ " -- " +:+ str e.2 +:+ newline.

End Diagram.

(** ** Facts about dictionaries *)

Section DictLookup.
Context {K V : Type} `{EqDecision K}.

Lemma get_set_eq (k : K) (v : V) (d : Dict.t K V) :
  Dict.get k (Dict.set k v d) = Some v.
Proof.
  induction d as [|[k' v'] d IH]; simpl.
  - now rewrite decide_True.
  - destruct (decide (k = k')) as [->|Hne]; simpl.
    + now rewrite decide_True.
    + now rewrite decide_False.
Qed.

Lemma get_set_ne (k k' : K) (v : V) (d : Dict.t K V) :
  k <> k' -> Dict.get k' (Dict.set k v d) = Dict.get k' d.
Proof.
  intros Hne. induction d as [|[k1 v1] d IH]; simpl.
  - now rewrite decide_False by congruence.
  - destruct (decide (k = k1)) as [->|Hne1]; simpl.
    + now rewrite !decide_False by congruence.
    + now rewrite IH.
Qed.

Lemma get_None_keys (k : K) (d : Dict.t K V) :
  Dict.get k d = None <-> k ∉ Dict.keys d.
Proof.
  induction d as [|[k' v'] d IH]; simpl.
  - split; [intros _; apply not_elem_of_nil|done].
  - rewrite not_elem_of_cons. case_decide; [|tauto].
    split; [discriminate|tauto].
Qed.

Lemma get_Some_keys (k : K) (d : Dict.t K V) :
  is_Some (Dict.get k d) <-> k ∈ Dict.keys d.
Proof.
  destruct (Dict.get k d) eqn:Hget.
  - split; [intros _|eauto].
    destruct (decide (k ∈ Dict.keys d)) as [|Hno]; [done|].
    apply get_None_keys in Hno. congruence.
  - split; [intros [? [=]]|].
    intros Hin. now apply get_None_keys in Hget.
Qed.

(** An assignment to a key that is there keeps the keys, one to a new key
    appends it. *)
Lemma keys_set_present (k : K) (v : V) (d : Dict.t K V) :
  k ∈ Dict.keys d -> Dict.keys (Dict.set k v d) = Dict.keys d.
Proof.
  induction d as [|[k' v'] d IH]; simpl.
  - intros Hin. now apply elem_of_nil in Hin.
  - case_decide; [done|]. rewrite elem_of_cons. simpl.
    intros [?|Hin]; [done|]. now rewrite IH.
Qed.

Lemma set_absent (k : K) (v : V) (d : Dict.t K V) :
  k ∉ Dict.keys d -> Dict.set k v d = d ++ [(k, v)].
Proof.
  induction d as [|[k' v'] d IH]; simpl; [done|].
  rewrite not_elem_of_cons. intros [Hne Hno].
  rewrite decide_False by done. now rewrite IH.
Qed.

Lemma NoDup_keys_set (k : K) (v : V) (d : Dict.t K V) :
  NoDup (Dict.keys d) -> NoDup (Dict.keys (Dict.set k v d)).
Proof.
  intros Hnd. destruct (decide (k ∈ Dict.keys d)) as [Hin|Hno].
  - now rewrite keys_set_present.
  - rewrite set_absent by done. unfold Dict.keys. rewrite map_app. simpl.
    apply NoDup_app. split; [exact Hnd|]. split.
    + intros x Hx. rewrite list_elem_of_singleton. now intros ->.
    + apply NoDup_singleton.
Qed.

Lemma elem_of_set (k : K) (v : V) (d : Dict.t K V) (p : K * V) :
  p ∈ Dict.set k v d -> p ∈ d \/ p = (k, v).
Proof.
  induction d as [|[k' v'] d IH]; simpl.
  - rewrite list_elem_of_singleton. auto.
  - case_decide as Hk.
    + subst k'. rewrite !elem_of_cons. tauto.
    + rewrite !elem_of_cons. intros [->|Hin]; [auto|].
      destruct (IH Hin); auto.
Qed.

(** With unique keys, the entries under one key add up to its value. *)
Lemma sum_at_key (k : K) (f : V -> nat) (d : Dict.t K V) :
  NoDup (Dict.keys d) ->
  sum_list_with (fun p : K * V => if decide (p.1 = k) then f p.2 else 0%nat) d
  = default 0%nat (f <$> Dict.get k d).
Proof.
  induction d as [|[k' v'] d IH]; simpl; [done|].
  rewrite NoDup_cons. intros [Hno Hnd].
  destruct (decide (k' = k)) as [->|Hne].
  - rewrite decide_True by done. simpl.
    rewrite IH by done. apply get_None_keys in Hno. rewrite Hno. simpl. lia.
  - rewrite decide_False by congruence. now rewrite IH.
Qed.

Lemma keys_remove (k : K) (d : Dict.t K V) : k ∉ Dict.keys (Dict.remove k d).
Proof.
  induction d as [|[k' v] d IH]; simpl.
  - apply not_elem_of_nil.
  - case_decide; [exact IH|]. simpl. rewrite not_elem_of_cons. auto.
Qed.

Lemma keys_pop (k : K) (d d' : Dict.t K V) (v : V) :
  Dict.pop k d = Some (v, d') -> k ∉ Dict.keys d'.
Proof.
  unfold Dict.pop. destruct (Dict.get k d); [|discriminate].
  intros [= _ <-]. apply keys_remove.
Qed.

Lemma get_Some_elem (k : K) (v : V) (d : Dict.t K V) :
  Dict.get k d = Some v -> (k, v) ∈ d.
Proof.
  induction d as [|[k' v'] d IH]; simpl; [discriminate|].
  case_decide.
  - intros [= ->]. subst. left.
  - intros Hget. right. auto.
Qed.

End DictLookup.

Section DictShape.
Context {K V : Type} `{EqDecision K}.

Lemma last_key_elem (q : K) (d : Dict.t K V) :
  Dict.last_key d = Some q -> q ∈ Dict.keys d.
Proof.
  unfold Dict.last_key. intros Hlast.
  apply last_Some in Hlast as [l' ->]. apply elem_of_app. right. left.
Qed.

Lemma last_key_nonempty (d : Dict.t K V) :
  d <> [] -> is_Some (Dict.last_key d).
Proof.
  intros Hd. apply last_is_Some. unfold Dict.keys. now destruct d.
Qed.

Lemma length_remove_le (k : K) (d : Dict.t K V) :
  (length (Dict.remove k d) <= length d)%nat.
Proof.
  induction d as [|[k' v'] d IH]; simpl; [done|]. case_decide; simpl; lia.
Qed.

(** Removing a key that is there makes the dictionary shorter. *)
Lemma length_remove_lt (k : K) (d : Dict.t K V) :
  k ∈ Dict.keys d -> (length (Dict.remove k d) < length d)%nat.
Proof.
  induction d as [|[k' v'] d IH]; simpl.
  - intros Hin. now apply elem_of_nil in Hin.
  - rewrite elem_of_cons. case_decide as Hk.
    + intros _. pose proof (length_remove_le k d). lia.
    + intros [?|Hin]; [done|]. simpl. specialize (IH Hin). lia.
Qed.

End DictShape.

Section DictKeys.
Context {K V : Type} `{EqDecision K}.

Lemma keys_remove_elem (k x : K) (d : Dict.t K V) :
  x ∈ Dict.keys (Dict.remove k d) -> x ∈ Dict.keys d.
Proof.
  induction d as [|[k' v'] d IH]; simpl; [done|].
  case_decide; simpl; rewrite !elem_of_cons; tauto.
Qed.

Lemma keys_filter_elem (P : K * V -> Prop) `{forall p, Decision (P p)}
    (x : K) (d : Dict.t K V) :
  x ∈ Dict.keys (filter P d) -> x ∈ Dict.keys d.
Proof.
  unfold Dict.keys. rewrite !list_elem_of_fmap.
  intros [p [-> Hp]]. apply list_elem_of_filter in Hp as [_ Hp]. eauto.
Qed.

End DictKeys.

Section DictUnique.
Context {K V : Type} `{EqDecision K}.

(** With unique keys, an item is what [get] finds. *)
Lemma elem_get (k : K) (v : V) (d : Dict.t K V) :
  NoDup (Dict.keys d) -> (k, v) ∈ d -> Dict.get k d = Some v.
Proof.
  induction d as [|[k' v'] d IH]; simpl.
  - intros _ Hin. now apply elem_of_nil in Hin.
  - rewrite NoDup_cons, elem_of_cons. intros [Hno Hnd] [[= <- <-]|Hin].
    + now rewrite decide_True.
    + rewrite decide_False; [auto|].
      intros ->. apply Hno. apply list_elem_of_fmap. exists (k', v). auto.
Qed.

Lemma get_perm (k : K) (d1 d2 : Dict.t K V) :
  d1 ≡ₚ d2 -> NoDup (Dict.keys d1) -> Dict.get k d1 = Dict.get k d2.
Proof.
  intros Hperm Hnd.
  assert (NoDup (Dict.keys d2)) as Hnd2
    by (unfold Dict.keys in *; now rewrite <- Hperm).
  destruct (Dict.get k d1) as [v|] eqn:Hget.
  - symmetry. apply elem_get; [done|]. rewrite <- Hperm.
    now apply get_Some_elem.
  - symmetry. apply get_None_keys. apply get_None_keys in Hget.
    unfold Dict.keys in *. now rewrite <- Hperm.
Qed.

Lemma NoDup_keys_filter (P : K * V -> Prop) `{forall p, Decision (P p)}
    (d : Dict.t K V) :
  NoDup (Dict.keys d) -> NoDup (Dict.keys (filter P d)).
Proof.
  induction d as [|p d IH]; simpl; [done|].
  rewrite NoDup_cons. intros [Hno Hnd]. rewrite filter_cons.
  case_decide; [|auto]. simpl. apply NoDup_cons. split; [|auto].
  intros Hin. apply Hno. eapply keys_filter_elem, Hin.
Qed.

Lemma get_filter (P : K * V -> Prop) `{forall p, Decision (P p)}
    (k : K) (d : Dict.t K V) :
  NoDup (Dict.keys d) ->
  Dict.get k (filter P d)
  = match Dict.get k d with
    | Some v => if decide (P (k, v)) then Some v else None
    | None => None
    end.
Proof.
  induction d as [|[k' v'] d IH]; simpl; [done|].
  rewrite NoDup_cons. intros [Hno Hnd]. rewrite filter_cons.
  destruct (decide (k = k')) as [->|Hne].
  - case_decide; simpl.
    + now rewrite decide_True.
    + apply get_None_keys. intros Hin. apply Hno.
      eapply keys_filter_elem, Hin.
  - case_decide; simpl; [rewrite decide_False by done|]; auto.
Qed.

Lemma NoDup_keys_remove (k : K) (d : Dict.t K V) :
  NoDup (Dict.keys d) -> NoDup (Dict.keys (Dict.remove k d)).
Proof.
  induction d as [|[k' v'] d IH]; simpl; [done|].
  rewrite NoDup_cons. intros [Hno Hnd].
  case_decide; [auto|]. simpl. apply NoDup_cons. split; [|auto].
  intros Hin. apply Hno. eapply keys_remove_elem, Hin.
Qed.

Lemma get_remove (k x : K) (d : Dict.t K V) :
  Dict.get x (Dict.remove k d)
  = if decide (x = k) then None else Dict.get x d.
Proof.
  induction d as [|[k' v'] d IH]; simpl; [now case_decide|].
  destruct (decide (k = k')) as [<-|Hne]; simpl.
  - rewrite IH. repeat case_decide; congruence.
  - rewrite IH. repeat case_decide; congruence.
Qed.

End DictUnique.

(** ** Properties of the sampler *)

Section SamplerFacts.
Context {K : Type} `{EqDecision K}.
Context {G : Type} `{Random G}.

Lemma choice_elem (a : list K) (g g' : G) (s : K) :
  choice a g = (Ret s, g') -> s ∈ a.
Proof.
  unfold choice. destruct a as [|x a]; [discriminate|].
  destruct (randbelow _ g) as [i g1].
  destruct ((x :: a) !! i) as [y|] eqn:Hi; [|discriminate].
  intros [= <- _]. eapply list_elem_of_lookup_2, Hi.
Qed.

(** Everything the sampler selects comes from the pool. *)
Lemma lrc_loop_elem fuel (a : list K) n limits threshold :
  forall k counter result miss (g g' : G) r c m,
    lrc_loop fuel a n limits threshold k counter result miss g
      = (Ret (Some (r, c, m)), g') ->
    Forall (fun s => s ∈ a) result -> Forall (fun s => s ∈ a) r.
Proof.
  induction fuel as [|fuel IH]; intros k counter result miss g g' r c m; simpl.
  - case_decide; [discriminate|]. intros [= <- _ _]; auto.
  - case_decide; [|intros [= <- _ _]; auto].
    case_decide; [discriminate|].
    destruct (choice a g) as [[s| |] g1] eqn:Hs; try discriminate.
    apply choice_elem in Hs.
    destruct (Dict.get s counter) as [cs|].
    + destruct (Dict.get s limits) as [lim|]; [|discriminate].
      case_decide; intros Hrun Hres; eapply IH; eauto.
      apply Forall_app; auto.
    + intros Hrun Hres; eapply IH; eauto. apply Forall_app; auto.
Qed.

Lemma limited_random_choice_elem (a : list K) n limits seed threshold
    (g g' : G) r c m :
  limited_random_choice a n limits seed threshold g
    = (Ret (Some (r, c, m)), g') ->
  Forall (fun s => s ∈ a) r.
Proof.
  unfold limited_random_choice. case_decide; [discriminate|].
  intros Hrun. eapply lrc_loop_elem; eauto.
Qed.

End SamplerFacts.

(** *** The request check comes first *)

Section SamplerBoundary.
Context {K : Type} `{EqDecision K}.
Context {G : Type} `{Random G}.

(** C5. When [n] is strictly greater than the sum of the limits,
    [limited_random_choice] raises [ValueError] at once: the outcome is the
    exception and the random stream it hands back is the very state it was
    given, so nothing was drawn and nothing was reseeded, whatever the pool,
    the seed and the threshold are. *)
Theorem limited_random_choice_invalid_request (a : list K) (n : Z)
    (limits : Dict.t K Z) (seed : option Z) (threshold : Z) (g : G) :
  n > sum_Z (Dict.values limits) ->
  limited_random_choice a n limits seed threshold g = (Raise ValueError, g).
Proof.
  intros Hn. unfold limited_random_choice. now rewrite decide_True.
Qed.

End SamplerBoundary.

(** Scenario D of the specification, with a seed that would otherwise reset
    the stream. *)
Lemma limited_random_choice_invalid_request_witness :
  7 > sum_Z (Dict.values [(1, 1); (2, 2); (3, 3)]) /\
  limited_random_choice [1; 2; 3] 7 [(1, 1); (2, 2); (3, 3)] (Some 7)
    default_threshold [5%nat; 5%nat]
  = (Raise ValueError, [5%nat; 5%nat]).
Proof.
  split; [reflexivity|].
  apply (limited_random_choice_invalid_request (G := list nat)).
  reflexivity.
Defined.

(** Scenario C of the specification: two draws of the last key. *)
Example scenario_C :
  limited_random_choice [1; 2; 3] 2 [(1, 1); (2, 1); (3, 2)] None
    default_threshold [2%nat; 2%nat]
  = (Ret (Some ([3; 3], [(3, 2)], 0)), []).
Proof. vm_compute. reflexivity. Qed.

(** *** A key whose limit is zero *)

(** C4. The first draw of a key is accepted without a look at its limit.
    With the pool [[1; 2; 3]], [n = 1] and the limits [{1: 1, 2: 1, 3: 0}]
    (so [n] is within the sum of the limits), a stream whose first draw is
    the third key makes the sampler return the selection [[3]] with the
    count map [{3: 1}]: key [3] is counted once although its limit is
    zero. *)
Theorem limited_random_choice_zero_limit_exceeded :
  let limits := [(1, 1); (2, 1); (3, 0)] in
  1 <= sum_Z (Dict.values limits) /\
  exists counter g',
    limited_random_choice [1; 2; 3] 1 limits None default_threshold [2%nat]
      = (Ret (Some ([3], counter, 0)), g') /\
    Dict.get 3 counter = Some 1 /\
    Dict.get 3 limits = Some 0.
Proof.
  split; [vm_compute; discriminate|].
  exists [(3, 1)], []. split; [vm_compute; reflexivity|]. split; reflexivity.
Qed.

(** *** The sampler always comes back *)

Section SamplerTotal.
Context {K : Type} `{EqDecision K}.
Context {G : Type} `{Random G}.

Lemma choice_nonempty (a : list K) (g : G) :
  a <> [] -> exists s g', choice a g = (Ret s, g') /\ s ∈ a.
Proof.
  intros Ha. unfold choice. destruct a as [|x a]; [done|].
  pose proof (randbelow_lt (length (x :: a)) g) as Hlt.
  destruct (randbelow (length (x :: a)) g) as [i g'].
  destruct (lookup_lt_is_Some_2 (x :: a) i) as [s Hs];
    [apply Hlt; simpl; lia|].
  rewrite Hs. exists s, g'. split; [done|].
  eapply list_elem_of_lookup_2, Hs.
Qed.

(** With a threshold of at least 1 the draws are bounded by it: when every
    key of the pool has a limit, the loop returns, exhausted or not. *)
Lemma lrc_loop_returns (a : list K) (n : Z) (limits : Dict.t K Z)
    (threshold : Z) :
  a <> [] ->
  (forall s, s ∈ a -> is_Some (Dict.get s limits)) ->
  forall fuel k counter result miss (g : G),
    0 <= k < threshold ->
    threshold <= k + Z.of_nat fuel ->
    exists r g',
      lrc_loop fuel a n limits threshold k counter result miss g
      = (Ret r, g').
Proof.
  intros Ha Hlim.
  induction fuel as [|fuel IH]; intros k counter result miss g Hk Hfuel;
    [lia|].
  simpl. case_decide; [|eauto].
  case_decide; [eauto|].
  destruct (choice_nonempty a g Ha) as (s & g' & -> & Hs).
  destruct (Hlim s Hs) as [lim ->].
  destruct (Dict.get s counter); [case_decide|]; apply IH; lia.
Qed.

(** Called on the keys of [limits], as [rewire_network] does, the sampler
    returns a selection, returns [None], or raises [ValueError]. *)
Lemma limited_random_choice_returns (limits : Dict.t K Z) (n : Z)
    (seed : option Z) (threshold : Z) (g : G) :
  1 <= threshold ->
  (exists r g',
      limited_random_choice (Dict.keys limits) n limits seed threshold g
      = (Ret r, g')) \/
  limited_random_choice (Dict.keys limits) n limits seed threshold g
  = (Raise ValueError, g).
Proof.
  intros Hthr. unfold limited_random_choice. case_decide as Hn; [now right|].
  left. destruct limits as [|[k0 v0] limits].
  - destruct (Z.to_nat threshold); simpl in *;
      rewrite decide_False by lia; eauto.
  - apply lrc_loop_returns; [done| |lia|lia].
    intros s Hs. now apply get_Some_keys.
Qed.

End SamplerTotal.

(** *** What the sampler keeps within the limits *)

Section SamplerCounts.
Context {K : Type} `{EqDecision K}.
Context {G : Type} `{Random G}.

Lemma sum_values_set (s : K) (v : Z) (d : Dict.t K Z) :
  sum_Z (Dict.values (Dict.set s v d))
  = sum_Z (Dict.values d) - default 0 (Dict.get s d) + v.
Proof.
  induction d as [|[k' v'] d IH]; simpl; [lia|].
  destruct (decide (s = k')) as [->|Hne]; simpl; [lia|].
  rewrite IH. lia.
Qed.

Lemma occurrences_snoc (s x : K) (l : list K) :
  occurrences s (l ++ [x])
  = occurrences s l + if decide (x = s) then 1 else 0.
Proof.
  unfold occurrences. rewrite filter_app, length_app, filter_cons.
  case_decide; simpl; lia.
Qed.

Lemma counted_accept (limits counter : Dict.t K Z) (result : list K)
    (s : K) (c : Z) :
  counted limits counter result ->
  default 0 (Dict.get s counter) = c - 1 ->
  (forall lim, Dict.get s limits = Some lim -> c <= lim) ->
  counted limits (Dict.set s c counter) (result ++ [s]).
Proof.
  intros (Hocc & Hsum & Hlim) Hc Hnew. repeat split.
  - intros s'. rewrite occurrences_snoc, <- Hocc.
    destruct (decide (s = s')) as [->|Hne].
    + rewrite get_set_eq. simpl. lia.
    + rewrite get_set_ne by done. lia.
  - rewrite sum_values_set, length_app, Hsum, Hc. simpl. lia.
  - intros s' c' lim. destruct (decide (s = s')) as [->|Hne].
    + rewrite get_set_eq. intros [= <-]. apply Hnew.
    + rewrite get_set_ne by done. apply Hlim.
Qed.

Lemma lrc_loop_counted fuel (a : list K) (n : Z) (limits : Dict.t K Z)
    (threshold : Z) :
  (forall s lim, s ∈ a -> Dict.get s limits = Some lim -> 1 <= lim) ->
  forall k counter result miss (g g' : G) r c m,
    lrc_loop fuel a n limits threshold k counter result miss g
      = (Ret (Some (r, c, m)), g') ->
    counted limits counter result ->
    sum_Z (Dict.values counter) <= n ->
    counted limits c r /\ sum_Z (Dict.values c) = n.
Proof.
  intros Hpos.
  induction fuel as [|fuel IH]; intros k counter result miss g g' r c m; simpl.
  - case_decide; [discriminate|]. intros [= <- <- _]. split; [done|lia].
  - case_decide as Hlt; [|intros [= <- <- _]; split; [done|lia]].
    case_decide; [discriminate|].
    destruct (choice a g) as [[s| |] g1] eqn:Hs; try discriminate.
    apply choice_elem in Hs.
    destruct (Dict.get s counter) as [cs|] eqn:Hcs.
    + destruct (Dict.get s limits) as [lim|] eqn:Hlim; [|discriminate].
      case_decide as Hroom; intros Hrun Hinv Hsum.
      * eapply IH; [exact Hrun| |].
        -- apply counted_accept; [done|rewrite Hcs; simpl; lia|].
           intros lim' Hlim'. rewrite Hlim in Hlim'.
           injection Hlim' as <-. lia.
        -- rewrite sum_values_set, Hcs. simpl. lia.
      * eapply IH; eauto.
    + intros Hrun Hinv Hsum. eapply IH; [exact Hrun| |].
      * apply counted_accept; [done|rewrite Hcs; simpl; lia|].
        intros lim Hlim. apply (Hpos s lim Hs Hlim).
      * rewrite sum_values_set, Hcs. simpl. lia.
Qed.

(** When every key of the pool has a limit of at least 1 and [n] is not
    negative, a selection that is returned has exactly [n] keys, the count
    map counts them, and no count is above its limit. *)
Lemma limited_random_choice_counted (a : list K) (n : Z)
    (limits : Dict.t K Z) (seed : option Z) (threshold : Z) (g g' : G)
    (r : list K) (c : Dict.t K Z) (m : Z) :
  (forall s lim, s ∈ a -> Dict.get s limits = Some lim -> 1 <= lim) ->
  0 <= n ->
  limited_random_choice a n limits seed threshold g
    = (Ret (Some (r, c, m)), g') ->
  (forall s cs lim,
      Dict.get s c = Some cs -> Dict.get s limits = Some lim -> cs <= lim) /\
  sum_Z (Dict.values c) = n /\
  Z.of_nat (length r) = n /\
  (forall s, default 0 (Dict.get s c) = occurrences s r).
Proof.
  intros Hpos Hn. unfold limited_random_choice. case_decide; [discriminate|].
  intros Hrun.
  destruct (lrc_loop_counted _ _ _ _ _ Hpos _ _ _ _ _ _ _ _ _ Hrun)
    as [(Hocc & Hlen & Hlim) Hsum].
  - repeat split; try done.
  - simpl. lia.
  - repeat split; try done. lia.
Qed.

End SamplerCounts.

(** ** Properties of [rewire_network] *)

Section RewireFacts.
Context {K : Type} `{EqDecision K}.
Context {G : Type} `{Random G}.

Local Abbreviation edge := (K * K)%type.

(** A round appends one edge from the hub to every selected key. *)
Lemma assign_stubs_edges (q0 : K) iter :
  forall res req res' req',
    assign_stubs q0 iter res req = Ret (res', req') ->
    res' = res ++ map (pair q0) iter.
Proof.
  induction iter as [|i iter IH]; intros res req res' req'; simpl.
  - intros [= <- _]. now rewrite app_nil_r.
  - destruct (Dict.get i req); [|discriminate].
    intros Hrun. apply IH in Hrun. now rewrite Hrun, <- app_assoc.
Qed.

(** One round of the loop, when the sampler is exhausted: the hub is gone
    from [req], no edge is added, and the loop goes on. *)
Lemma rewire_loop_exhausted fuel seed (req req1 : Dict.t K Z)
    (res : list edge) (g g' : G) q0 q1 :
  (0 < length (positive_items req))%nat ->
  Dict.last_key (positive_items (sorted_by_value req)) = Some q0 ->
  Dict.pop q0 (positive_items (sorted_by_value req)) = Some (q1, req1) ->
  limited_random_choice (Dict.keys req1) q1 req1 seed default_threshold g
    = (Ret None, g') ->
  rewire_loop (S fuel) seed req res g = rewire_loop fuel seed req1 res g'.
Proof.
  intros Hpos Hlast Hpop Hlrc. simpl.
  rewrite decide_True by exact Hpos. now rewrite Hlast, Hpop, Hlrc.
Qed.

(** One round of the loop, when the sampler raises [ValueError]: the
    whole call returns [NaN]. *)
Lemma rewire_loop_invalid_request fuel seed (req req1 : Dict.t K Z)
    (res : list edge) (g g' : G) q0 q1 :
  (0 < length (positive_items req))%nat ->
  Dict.last_key (positive_items (sorted_by_value req)) = Some q0 ->
  Dict.pop q0 (positive_items (sorted_by_value req)) = Some (q1, req1) ->
  limited_random_choice (Dict.keys req1) q1 req1 seed default_threshold g
    = (Raise ValueError, g') ->
  rewire_loop (S fuel) seed req res g = (Ret NaN, g').
Proof.
  intros Hpos Hlast Hpop Hlrc. simpl.
  rewrite decide_True by exact Hpos. now rewrite Hlast, Hpop, Hlrc.
Qed.

Lemma rewire_loop_no_self_loops fuel seed :
  forall (req : Dict.t K Z) (res res' : list edge) (g g' : G),
    rewire_loop fuel seed req res g = (Ret (Edges res'), g') ->
    Forall (fun e : edge => e.1 <> e.2) res ->
    Forall (fun e : edge => e.1 <> e.2) res'.
Proof.
  induction fuel as [|fuel IH]; intros req res res' g g'; simpl.
  - case_decide; [discriminate|]. now intros [= <- _].
  - case_decide; [|now intros [= <- _]].
    destruct (Dict.last_key _) as [q0|]; [|discriminate].
    destruct (Dict.pop q0 _) as [[q1 req1]|] eqn:Hpop; [|discriminate].
    apply keys_pop in Hpop.
    destruct (limited_random_choice _ _ _ _ _ _) as [[[[[iter c] m]|]|e|] g1]
      eqn:Hlrc.
    + apply limited_random_choice_elem in Hlrc.
      destruct (assign_stubs q0 iter res req1) as [[res1 req2]|e|] eqn:Has.
      * apply assign_stubs_edges in Has. subst res1.
        intros Hrun Hres. eapply IH; [exact Hrun|].
        apply Forall_app. split; [exact Hres|].
        apply Forall_fmap. eapply Forall_impl; [exact Hlrc|].
        intros i Hi. simpl. intros ->. contradiction.
      * destruct e; discriminate.
      * discriminate.
    + intros Hrun Hres. eapply IH; eauto.
    + destruct e; discriminate.
    + discriminate.
Qed.

(** C6. Every edge of every instance [rewire_network] returns joins two
    different nodes, for every degree sequence, seed, threshold argument
    and random stream: the hub of a round has been popped from [req]
    before the pool is handed to the sampler, and the sampler only returns
    keys of its pool. *)
Theorem rewire_network_no_self_loops (g : Dict.t K Z) (seed : option Z)
    (threshold : Z) (rng rng' : G) (res : list edge) :
  rewire_network g seed threshold rng = (Ret (Edges res), rng') ->
  Forall (fun e : edge => e.1 <> e.2) res.
Proof.
  unfold rewire_network. intros Hrun.
  eapply rewire_loop_no_self_loops; [exact Hrun|]. constructor.
Qed.

(** C10. Two runs of [rewire_network] that differ in the [threshold]
    argument only give the same result and leave the random stream in the
    same state: the argument is not passed on, and every round calls the
    sampler with the sampler's own default of 1,000,000. *)
Theorem rewire_network_threshold_unused (g : Dict.t K Z) (seed : option Z)
    (t1 t2 : Z) (rng : G) :
  rewire_network g seed t1 rng = rewire_network g seed t2 rng /\
  rewire_network g seed t1 rng
    = rewire_loop (length (positive_items g)) seed (positive_items g) [] rng /\
  default_threshold = 1000000.
Proof. repeat split. Qed.

End RewireFacts.

(** Scenario B of the specification. *)
Example scenario_B :
  rewire_network abc None 10000 [1%nat; 1%nat; 0%nat]
  = (Ret (Edges [("a", "b"); ("a", "b"); ("a", "c")]%string), []).
Proof. vm_compute. reflexivity. Qed.

Lemma rewire_network_no_self_loops_witness :
  rewire_network abc None 10000 [1%nat; 1%nat; 0%nat]
    = (Ret (Edges [("a", "b"); ("a", "b"); ("a", "c")]%string), []) /\
  Forall (fun e : string * string => e.1 <> e.2)
    [("a", "b"); ("a", "b"); ("a", "c")]%string.
Proof.
  assert (rewire_network abc None 10000 [1%nat; 1%nat; 0%nat]
          = (Ret (Edges [("a", "b"); ("a", "b"); ("a", "c")]%string), []))
    as Hrun by (vm_compute; reflexivity).
  split; [exact Hrun|].
  exact (rewire_network_no_self_loops abc None 10000
           [1%nat; 1%nat; 0%nat] [] _ Hrun).
Defined.

(** Scenario A of the specification: the hub needs three stubs and the
    other nodes offer two. *)
Example scenario_A :
  rewire_network [("a", 3); ("b", 1); ("c", 1)]%string (Some 1450) 10000
    ([] : list nat)
  = (Ret NaN, []).
Proof. vm_compute. reflexivity. Qed.

(** A threshold of 1 would stop the sampler before its first draw; passed
    to [rewire_network] it changes nothing. *)
Example threshold_one :
  limited_random_choice ["c"; "b"]%string 3 [("c", 1); ("b", 2)]%string None 1
    [1%nat; 1%nat; 0%nat]
  = (Ret None, [1%nat; 1%nat; 0%nat]) /\
  rewire_network abc None 1 [1%nat; 1%nat; 0%nat]
  = (Ret (Edges [("a", "b"); ("a", "b"); ("a", "c")]%string), []).
Proof. split; vm_compute; reflexivity. Qed.

(** *** [rewire_network] always comes back *)

Section RewireTotal.
Context {K : Type} `{EqDecision K}.
Context {G : Type} `{Random G}.

Local Abbreviation edge := (K * K)%type.

Lemma insert_by_value_perm (p : K * Z) (l : Dict.t K Z) :
  insert_by_value p l ≡ₚ p :: l.
Proof.
  induction l as [|q l IH]; simpl; [done|].
  case_decide; [done|]. rewrite IH. apply Permutation_swap.
Qed.

(** Sorting rearranges the items and nothing else. *)
Lemma sorted_by_value_perm (d : Dict.t K Z) : sorted_by_value d ≡ₚ d.
Proof.
  induction d as [|p d IH]; simpl; [done|].
  rewrite insert_by_value_perm. now rewrite IH.
Qed.

Lemma length_positive_sorted (d : Dict.t K Z) :
  length (positive_items (sorted_by_value d)) = length (positive_items d).
Proof.
  unfold positive_items. apply Permutation_length.
  now rewrite sorted_by_value_perm.
Qed.

(** The stubs of a selection made of keys of [req] are all assigned, and
    the keys of [req] stay. *)
Lemma assign_stubs_returns (q0 : K) (iter : list K) :
  forall (res : list edge) (req : Dict.t K Z),
    Forall (fun i => i ∈ Dict.keys req) iter ->
    exists res' req',
      assign_stubs q0 iter res req = Ret (res', req') /\
      Dict.keys req' = Dict.keys req.
Proof.
  induction iter as [|i iter IH]; intros res req Hiter; simpl; [eauto|].
  apply Forall_cons in Hiter as [Hi Hiter].
  destruct (proj2 (get_Some_keys i req) Hi) as [v ->].
  destruct (IH (res ++ [(q0, i)]) (Dict.set i (v - 1) req))
    as (res' & req' & -> & Hkeys).
  - now rewrite keys_set_present.
  - exists res', req'. split; [done|]. now rewrite Hkeys, keys_set_present.
Qed.

(** Every round removes the hub, so as many rounds as there are keys of
    positive degree are enough; no round raises anything but the
    [ValueError] that is turned into [NaN]. *)
Lemma rewire_loop_returns fuel seed :
  forall (req : Dict.t K Z) (res : list edge) (g : G),
    (length (positive_items req) <= fuel)%nat ->
    exists r g', rewire_loop fuel seed req res g = (Ret r, g').
Proof.
  induction fuel as [|fuel IH]; intros req res g Hfuel; simpl.
  - rewrite decide_False by lia. eauto.
  - case_decide as Hpos; [|eauto].
    rewrite <- length_positive_sorted in Hpos, Hfuel.
    set (P := positive_items (sorted_by_value req)) in *.
    destruct (last_key_nonempty P) as [q0 Hq0];
      [intros HP; rewrite HP in Hpos; simpl in Hpos; lia|].
    rewrite Hq0. apply last_key_elem in Hq0.
    unfold Dict.pop.
    destruct (proj2 (get_Some_keys q0 P) Hq0) as [q1 ->].
    pose proof (length_remove_lt q0 P Hq0) as Hlen.
    set (req1 := Dict.remove q0 P) in *.
    assert (forall req2 : Dict.t K Z,
               Dict.keys req2 = Dict.keys req1 ->
               (length (positive_items req2) <= fuel)%nat) as Hnext.
    { intros req2 Hkeys. pose proof (length_filter (fun p : K * Z => 0 < p.2) req2).
      unfold positive_items.
      assert (length req2 = length req1); [|lia].
      unfold Dict.keys in Hkeys.
      now rewrite <- (length_map fst req2), Hkeys, length_map. }
    destruct (limited_random_choice_returns req1 q1 seed default_threshold g)
      as [(r & g' & Hlrc)|Hlrc]; [done| |rewrite Hlrc; eauto].
    rewrite Hlrc. destruct r as [[[iter c] m]|]; [|now apply IH, Hnext].
    apply limited_random_choice_elem in Hlrc.
    destruct (assign_stubs_returns q0 iter res req1 Hlrc)
      as (res' & req2 & -> & Hkeys).
    now apply IH, Hnext.
Qed.

(** [rewire_network] returns an edge list or [NaN] on every degree
    sequence and every random stream. *)
Lemma rewire_network_returns (g : Dict.t K Z) (seed : option Z)
    (threshold : Z) (rng : G) :
  exists r rng', rewire_network g seed threshold rng = (Ret r, rng').
Proof.
  unfold rewire_network. apply rewire_loop_returns.
  unfold positive_items at 1. apply length_filter.
Qed.

(** With a retry budget of at least 1, so does [generate_networks]. *)
Lemma generate_loop_returns (g : Dict.t K Z) (n threshold : Z) :
  forall fuel k (results : list (list edge)) (rng : G),
    0 <= k < threshold ->
    threshold <= k + Z.of_nat fuel ->
    exists r rng',
      generate_loop fuel g n threshold k results rng = (Ret r, rng').
Proof.
  induction fuel as [|fuel IH]; intros k results rng Hk Hfuel; [lia|].
  simpl. case_decide; [|eauto].
  destruct (rewire_network_returns g None default_rewire_threshold rng)
    as (r & rng' & ->).
  case_decide; [eauto|]. apply IH; lia.
Qed.

Lemma generate_networks_returns (g : Dict.t K Z) (n : Z) (seed : option Z)
    (threshold : Z) (rng : G) :
  1 <= threshold ->
  exists r rng', generate_networks g n seed threshold rng = (Ret r, rng').
Proof.
  intros Hthr. unfold generate_networks. apply generate_loop_returns; lia.
Qed.

End RewireTotal.

(** ** When the sampler gives up *)

Section Stuck.
Context {K : Type} `{EqDecision K}.

(** On the used-up script every draw is the first key of the pool.  Once
    that key has reached its limit, every further draw is a miss, and the
    loop ends at the threshold. *)
Lemma lrc_loop_stuck (s : K) (a : list K) (n : Z) (limits : Dict.t K Z)
    (threshold c lim : Z) (counter : Dict.t K Z) (result : list K) :
  Dict.get s limits = Some lim ->
  Dict.get s counter = Some c ->
  ~ c < lim ->
  sum_Z (Dict.values counter) < n ->
  forall fuel k miss,
    0 <= k < threshold ->
    threshold <= k + Z.of_nat fuel ->
    lrc_loop fuel (s :: a) n limits threshold k counter result miss
      ([] : list nat)
    = (Ret None, []).
Proof.
  intros Hlim Hc Hfull Hsum.
  induction fuel as [|fuel IH]; intros k miss Hk Hfuel; [lia|].
  simpl. rewrite decide_True by exact Hsum.
  case_decide; [reflexivity|].
  rewrite Hc, Hlim. rewrite decide_False by exact Hfull.
  apply IH; lia.
Qed.

End Stuck.

(** The pool [["b"; "c"]] with one stub each and two stubs asked for: the
    first draw takes ["b"], the 999,998 draws after it are misses, and the
    sampler returns [None]. *)
Lemma sampler_exhausted_on_hub2 :
  limited_random_choice ["b"; "c"]%string 2 [("b", 1); ("c", 1)]%string
    None default_threshold ([] : list nat)
  = (Ret None, []).
Proof.
  unfold limited_random_choice.
  rewrite decide_False by (vm_compute; discriminate).
  destruct (Z.to_nat default_threshold) as [|fuel] eqn:Hfuel;
    [unfold default_threshold in Hfuel; lia|].
  cbn [lrc_loop seed_if_truthy Dict.values map sum_Z foldr].
  rewrite decide_True by lia.
  rewrite decide_False by (unfold default_threshold; lia).
  change (choice ["b"; "c"]%string ([] : list nat))
    with (Ret "b"%string, ([] : list nat)).
  cbn [Dict.get Dict.set app].
  apply (lrc_loop_stuck "b"%string ["c"%string] 2 _ default_threshold 1 1).
  - reflexivity.
  - reflexivity.
  - lia.
  - vm_compute. reflexivity.
  - unfold default_threshold. lia.
  - unfold default_threshold in *. lia.
Qed.

(** The run of [rewire_network] on [hub2] with that stream: the round of
    the hub ["a"] is dropped, and the next round joins ["c"] to ["b"]. *)
Lemma rewire_hub2_run (threshold : Z) :
  rewire_network hub2 None threshold ([] : list nat)
  = (Ret (Edges [("c", "b")]%string), []).
Proof.
  change (rewire_network hub2 None threshold ([] : list nat))
    with (rewire_loop 3 None hub2 [] ([] : list nat)).
  rewrite (rewire_loop_exhausted 2 None hub2
             [("b", 1); ("c", 1)]%string [] [] [] "a"%string 2).
  - vm_compute. reflexivity.
  - vm_compute. lia.
  - reflexivity.
  - reflexivity.
  - exact sampler_exhausted_on_hub2.
Qed.

(** C2. On the degree sequence [{a: 2, b: 1, c: 1}] the first round asks
    the sampler for two keys out of [["b"; "c"]]; with a stream that keeps
    drawing ["b"] the sampler returns its exhausted outcome.
    [rewire_network] does not return [NaN] then: it goes on with the nodes
    that are left and returns the edge list [[("c", "b")]], in which the
    hub ["a"] has no edge. *)
Theorem rewire_network_continues_after_exhaustion :
  limited_random_choice ["b"; "c"]%string 2 [("b", 1); ("c", 1)]%string
    None default_threshold ([] : list nat)
  = (Ret None, []) /\
  rewire_network hub2 None default_rewire_threshold ([] : list nat)
  = (Ret (Edges [("c", "b")]%string), []).
Proof.
  split; [exact sampler_exhausted_on_hub2 | apply rewire_hub2_run].
Qed.

(** C1. The edge list returned for [{a: 2, b: 1, c: 1}] in that run does
    not have the input degrees: ["a"] has degree 2 in the input and 0 in
    the instance. *)
Theorem rewire_network_degree_lost :
  exists res g',
    rewire_network hub2 None default_rewire_threshold ([] : list nat)
      = (Ret (Edges res), g') /\
    Dict.get "a"%string hub2 = Some 2 /\
    degree_of "a"%string res = 0.
Proof.
  exists [("c", "b")]%string, []. split; [apply rewire_hub2_run|].
  split; reflexivity.
Qed.

(** ** Properties of [generate_networks] *)

Section GenerateFacts.
Context {K : Type} `{EqDecision K}.
Context {G : Type} `{Random G}.

Local Abbreviation edge := (K * K)%type.

(** The loop never hands back fewer instances than asked for, and never
    more than it had when the request was already met. *)
Lemma generate_loop_length fuel (g : Dict.t K Z) n threshold :
  forall k (results out : list (list edge)) (rng rng' : G),
    generate_loop fuel g n threshold k results rng = (Ret (Some out), rng') ->
    Z.of_nat (length results) <= n ->
    Z.of_nat (length out) = n.
Proof.
  induction fuel as [|fuel IH]; intros k results out rng rng'; simpl.
  - case_decide; [discriminate|]. intros [= <- _]. lia.
  - case_decide as Hlt; [|intros [= <- _]; lia].
    destruct (rewire_network g None default_rewire_threshold rng)
      as [[r|e|] rng1]; try discriminate.
    case_decide; [discriminate|].
    intros Hrun _. eapply IH; [exact Hrun|].
    destruct r; [rewrite length_app; simpl|]; lia.
Qed.

(** All or nothing: an ensemble that is returned has exactly [n]
    instances. *)
Lemma generate_networks_all_or_nothing (g : Dict.t K Z) n seed threshold
    (rng rng' : G) (out : list (list edge)) :
  0 <= n ->
  generate_networks g n seed threshold rng = (Ret (Some out), rng') ->
  Z.of_nat (length out) = n.
Proof.
  intros Hn Hrun. eapply generate_loop_length; [exact Hrun|]. simpl. lia.
Qed.

(** A seed other than zero resets the stream, and the run no longer
    depends on the state the stream was in. *)
Lemma generate_networks_seeded (g : Dict.t K Z) n (seed : Z) threshold
    (rng1 rng2 : G) :
  seed <> 0 ->
  generate_networks g n (Some seed) threshold rng1
  = generate_networks g n (Some seed) threshold rng2.
Proof.
  intros Hseed. unfold generate_networks, seed_if_truthy.
  destruct (decide (seed = 0)); [contradiction|reflexivity].
Qed.

End GenerateFacts.

(** The second doctest of [generate_networks], with the draws scripted. *)
Example ensemble_of_three :
  generate_networks abc 3 None default_infinite_loop_threshold
    [1; 1; 0; 0; 1; 1; 1; 0; 1]%nat
  = (Ret (Some [[("a", "b"); ("a", "b"); ("a", "c")];
                [("a", "c"); ("a", "b"); ("a", "b")];
                [("a", "b"); ("a", "c"); ("a", "b")]]%string), []).
Proof. vm_compute. reflexivity. Qed.

(** The first doctest: an infeasible degree sequence uses up the budget. *)
Example ensemble_exhausted :
  generate_networks [("a", 3); ("b", 1); ("c", 1)]%string 2 (Some 1450) 10
    ([] : list nat)
  = (Ret None, [1450%nat]).
Proof. vm_compute. reflexivity. Qed.

(** C3. With the degree sequence [{a: 1, b: 1}], one instance asked for
    and a retry budget of 1, the first attempt succeeds with the instance
    [[("b", "a")]], so the ensemble is complete within the budget; the
    attempt counter then equals the budget and [generate_networks] returns
    the exhausted outcome [None] instead of the ensemble. *)
Theorem generate_networks_drops_complete_ensemble :
  rewire_network pair11 None default_rewire_threshold ([] : list nat)
    = (Ret (Edges [("b", "a")]%string), []) /\
  generate_networks pair11 1 None 1 ([] : list nat) = (Ret None, []) /\
  generate_networks pair11 1 None 2 ([] : list nat)
    = (Ret (Some [[("b", "a")]%string]), []).
Proof. repeat split; vm_compute; reflexivity. Qed.

(** C7. With the seed 0 the stream is not reseeded ([if seed:] takes 0 for
    false), and two runs with the same seed 0, the same degree sequence and
    the same [n] return different ensembles when the stream was left in
    different states. *)
Theorem generate_networks_seed_zero_not_reproducible :
  generate_networks abc 1 (Some 0) default_infinite_loop_threshold
    [0; 1; 1]%nat
  = (Ret (Some [[("a", "c"); ("a", "b"); ("a", "b")]%string]), []) /\
  generate_networks abc 1 (Some 0) default_infinite_loop_threshold
    [1; 0; 1]%nat
  = (Ret (Some [[("a", "b"); ("a", "c"); ("a", "b")]%string]), []).
Proof. split; vm_compute; reflexivity. Qed.

(** ** The caller's dictionary is left alone *)

Section Frame.
Context {K : Type} `{EqDecision K}.
Context {G : Type} `{Random G}.

Local Abbreviation edge := (K * K)%type.
Local Abbreviation St := (@store K).
Local Abbreviation Comp := (@M K G).

(** [m] keeps every object of [h0] as it is, and what it returns
    satisfies [P]. *)
Definition keeps (h0 : St) {A} (P : A -> Prop) (m : Comp A) : Prop :=
  forall h g o h' g',
    h0 `prefix_of` h ->
    m h g = (o, h', g') ->
    h0 `prefix_of` h' /\ forall a, o = Ret a -> P a.

Lemma keeps_ret h0 {A} (P : A -> Prop) (a : A) :
  P a -> keeps h0 P (mret a).
Proof. intros HP h g o h' g' Hh [= <- <- _]. split; [exact Hh|]. now intros ? [= <-]. Qed.

Lemma keeps_raise h0 {A} (P : A -> Prop) e : keeps h0 P (raise e).
Proof. intros h g o h' g' Hh [= <- <- _]. split; [exact Hh|]. discriminate. Qed.

Lemma keeps_out_of_fuel h0 {A} (P : A -> Prop) : keeps h0 P out_of_fuel.
Proof. intros h g o h' g' Hh [= <- <- _]. split; [exact Hh|]. discriminate. Qed.

Lemma keeps_bind h0 {A B} (P : A -> Prop) (Q : B -> Prop)
    (m : Comp A) (f : A -> Comp B) :
  keeps h0 P m -> (forall a, P a -> keeps h0 Q (f a)) ->
  keeps h0 Q (m ≫= f).
Proof.
  intros Hm Hf h g o h' g' Hh. unfold mbind, M_bind.
  destruct (m h g) as [[o1 h1] g1] eqn:Hrun.
  destruct (Hm _ _ _ _ _ Hh Hrun) as [Hh1 HP].
  destruct o1 as [a|e|].
  - intros Hrun2. eapply Hf; eauto.
  - intros [= <- <- _]. split; [exact Hh1|]. discriminate.
  - intros [= <- <- _]. split; [exact Hh1|]. discriminate.
Qed.

Lemma keeps_weaken h0 {A} (P Q : A -> Prop) (m : Comp A) :
  keeps h0 P m -> (forall a, P a -> Q a) -> keeps h0 Q m.
Proof.
  intros Hm HPQ h g o h' g' Hh Hrun.
  destruct (Hm _ _ _ _ _ Hh Hrun) as [Hh1 HP]. split; [exact Hh1|]. auto.
Qed.

(** A new object lies beyond every object of [h0]. *)
Lemma keeps_alloc h0 d :
  keeps h0 (fun r : ref => (length h0 <= r)%nat) (alloc d).
Proof.
  intros h g o h' g' Hh [= <- <- _]. split.
  - now apply prefix_app_r.
  - intros a [= <-]. now apply prefix_length.
Qed.

Lemma keeps_load h0 r : keeps h0 (fun _ => True) (load r).
Proof. intros h g o h' g' Hh [= <- <- _]. now split. Qed.

(** Writing to an object beyond [h0] does not touch [h0]. *)
Lemma keeps_store_at h0 r d :
  (length h0 <= r)%nat -> keeps h0 (fun _ => True) (store_at r d).
Proof.
  intros Hr h g o h' g' [k ->] [= <- <- _]. split; [|done].
  unfold store in *.
  rewrite insert_app_r_alt by exact Hr. now apply prefix_app_r.
Qed.

Lemma keeps_draw h0 a : keeps h0 (fun _ => True) (draw a).
Proof.
  intros h g o h' g' Hh. unfold draw. destruct (choice a g).
  intros [= <- <- _]. now split.
Qed.

Lemma keeps_reseed h0 seed : keeps h0 (fun _ => True) (reseed seed).
Proof. intros h g o h' g' Hh [= <- <- _]. now split. Qed.

Lemma keeps_except h0 {A} (P : A -> Prop) (m handler : Comp A) :
  keeps h0 P m -> keeps h0 P handler ->
  keeps h0 P (except_ValueError m handler).
Proof.
  intros Hm Hhandler h g o h' g' Hh. unfold except_ValueError.
  destruct (m h g) as [[o1 h1] g1] eqn:Hrun.
  destruct (Hm _ _ _ _ _ Hh Hrun) as [Hh1 HP].
  destruct o1 as [a|[]|]; try (intros [= <- <- _]; now split).
  intros Hrun2. eapply Hhandler; eauto.
Qed.

Local Ltac step :=
  first
    [ apply keeps_ret; try done
    | apply keeps_raise
    | apply keeps_out_of_fuel
    | eapply keeps_bind; [apply keeps_load | intros ? _]
    | eapply keeps_bind; [apply keeps_draw | intros ? _]
    | eapply keeps_bind; [apply keeps_reseed | intros ? _]
    | eapply keeps_bind; [apply keeps_store_at; assumption | intros ? _]
    | eapply keeps_bind; [apply keeps_alloc | intros ? ?] ].

(** The sampler writes to its own counter only. *)
Lemma keeps_lrc_loop h0 fuel a n limits threshold counter :
  (length h0 <= counter)%nat ->
  forall k result miss,
    keeps h0 (fun _ => True)
      (lrc_loop_st fuel a n limits threshold k counter result miss).
Proof.
  intros Hc. induction fuel as [|fuel IH]; intros k result miss; simpl.
  - step. case_decide; step.
  - step. case_decide; [|step]. case_decide; [step|].
    do 2 step. destruct (Dict.get _ _).
    + step. destruct (Dict.get _ _); [|step].
      case_decide; [step|]; apply IH.
    + step. apply IH.
Qed.

Lemma keeps_limited_random_choice h0 a n limits seed threshold :
  keeps h0 (fun _ => True)
    (limited_random_choice_st a n limits seed threshold).
Proof.
  unfold limited_random_choice_st. step. case_decide; [step|].
  do 2 step. now apply keeps_lrc_loop.
Qed.

Lemma keeps_assign_stubs h0 q0 iter req :
  (length h0 <= req)%nat ->
  forall res, keeps h0 (fun _ => True) (assign_stubs_st q0 iter res req).
Proof.
  intros Hreq. induction iter as [|i iter IH]; intros res; simpl.
  - step.
  - step. destruct (Dict.get _ _); [|step]. step. apply IH.
Qed.

(** Every write of a round goes to an object made in [rewire_network]. *)
Lemma keeps_rewire_loop h0 fuel seed :
  forall req res,
    (length h0 <= req)%nat ->
    keeps h0 (fun _ => True) (rewire_loop_st fuel seed req res).
Proof.
  induction fuel as [|fuel IH]; intros req res Hreq; simpl.
  - step. case_decide; step.
  - step. case_decide; [|step].
    do 5 step. destruct (Dict.last_key _); [|step].
    step. destruct (Dict.pop _ _) as [[q1 d']|]; [|step].
    do 3 step.
    eapply keeps_bind with (P := fun _ => True).
    + apply keeps_except; [|step].
      step. eapply keeps_bind; [apply keeps_limited_random_choice|].
      intros [[[iter c] m]|] _; [|step].
      eapply keeps_bind; [now apply keeps_assign_stubs|].
      intros res' _. step.
    + intros [res'|] _; [now apply IH|step].
Qed.

Lemma keeps_rewire_network h0 g seed threshold :
  keeps h0 (fun _ => True) (rewire_network_st g seed threshold).
Proof.
  unfold rewire_network_st. do 3 step. now apply keeps_rewire_loop.
Qed.

Lemma keeps_generate_loop h0 fuel g n threshold :
  forall k results,
    keeps h0 (fun _ => True) (generate_loop_st fuel g n threshold k results).
Proof.
  induction fuel as [|fuel IH]; intros k results; simpl.
  - case_decide; step.
  - case_decide; [|step].
    eapply keeps_bind; [apply keeps_rewire_network|]. intros r _.
    case_decide; [step|apply IH].
Qed.

Lemma keeps_generate_networks h0 g n seed threshold :
  keeps h0 (fun _ => True) (generate_networks_st g n seed threshold).
Proof.
  unfold generate_networks_st. step. apply keeps_generate_loop.
Qed.

(** C9. Whatever [rewire_network] and [generate_networks] do, succeed,
    fail or raise, the store after the call begins with the store before
    it: every object that existed, and so the caller's degree dictionary
    [g], holds what it held.  All writes go to objects allocated during
    the call. *)
Theorem caller_dictionary_unchanged (h : St) (g : ref) (d : Dict.t K Z)
    (n : Z) (seed : option Z) (threshold infinite_loop_threshold : Z)
    (rng : G) :
  h !! g = Some d ->
  let after_rewire := (rewire_network_st g seed threshold h rng).1.2 in
  let after_generate :=
    (generate_networks_st g n seed infinite_loop_threshold h rng).1.2 in
  (h `prefix_of` after_rewire /\ after_rewire !! g = Some d) /\
  (h `prefix_of` after_generate /\ after_generate !! g = Some d).
Proof.
  intros Hg. simpl. split.
  - destruct (rewire_network_st g seed threshold h rng) as [[o h'] g'] eqn:Hrun.
    destruct (keeps_rewire_network h g seed threshold h rng o h' g')
      as [Hpre _]; [done|exact Hrun|].
    split; [exact Hpre|]. simpl. eapply prefix_lookup_Some; eauto.
  - destruct (generate_networks_st g n seed infinite_loop_threshold h rng)
      as [[o h'] g'] eqn:Hrun.
    destruct (keeps_generate_networks h g n seed infinite_loop_threshold
                h rng o h' g') as [Hpre _]; [done|exact Hrun|].
    split; [exact Hpre|]. simpl. eapply prefix_lookup_Some; eauto.
Qed.

End Frame.

(** The doctest input, held in a store next to another dictionary. *)
Lemma caller_dictionary_unchanged_witness :
  let h := [hub2; abc] in
  let after_rewire :=
    (rewire_network_st 1%nat None 10000 h [1; 1; 0]%nat).1.2 in
  let after_generate :=
    (generate_networks_st 1%nat 1 None 10000 h [1; 1; 0]%nat).1.2 in
  h !! 1%nat = Some abc /\
  (h `prefix_of` after_rewire /\ after_rewire !! 1%nat = Some abc) /\
  (h `prefix_of` after_generate /\ after_generate !! 1%nat = Some abc).
Proof.
  split; [reflexivity|].
  apply (caller_dictionary_unchanged [hub2; abc] 1%nat abc 1 None 10000
           10000 [1; 1; 0]%nat).
  reflexivity.
Defined.

(** ** The store version computes what the pure version computes *)

Section Agreement.
Context {K : Type} `{EqDecision K}.
Context {G : Type} `{Random G}.

Local Abbreviation edge := (K * K)%type.
Local Abbreviation St := (@store K).

Lemma deref_insert_eq (h : St) (r : ref) (d : Dict.t K Z) :
  (r < length h)%nat -> deref (<[r:=d]> h) r = d.
Proof.
  intros Hr. unfold deref, store in *. now rewrite list_lookup_insert_eq.
Qed.

Lemma deref_insert_ne (h : St) (r r' : ref) (d : Dict.t K Z) :
  r <> r' -> deref (<[r:=d]> h) r' = deref h r'.
Proof.
  intros Hr. unfold deref, store in *. now rewrite list_lookup_insert_ne.
Qed.

Lemma deref_Some (h : St) (r : ref) (d : Dict.t K Z) :
  h !! r = Some d -> deref h r = d.
Proof. intros Hr. unfold deref. now rewrite Hr. Qed.

Lemma deref_alloc (h : St) (d : Dict.t K Z) : deref (h ++ [d]) (length h) = d.
Proof. unfold deref, store in *. now rewrite list_lookup_middle. Qed.

Lemma lookup_alloc (h : St) (d : Dict.t K Z) :
  (h ++ [d]) !! length h = Some d.
Proof. unfold store in *. now rewrite list_lookup_middle. Qed.

Local Ltac run :=
  unfold mbind, M_bind, mret, M_ret, load, store_at, alloc, draw, reseed,
    raise, out_of_fuel; simpl.

(** The loop of the sampler: the same outcome and stream, and the counter
    object holds the count map. *)
Lemma lrc_loop_st_agrees fuel (a : list K) n limits threshold counter :
  counter <> limits ->
  forall k result miss (h : St) (g : G) c0,
    h !! counter = Some c0 ->
    exists c,
      lrc_loop_st fuel a n limits threshold k counter result miss h g
      = (counter_at counter
           (lrc_loop fuel a n (deref h limits) threshold k c0 result miss g).1,
         <[counter:=c]> h,
         (lrc_loop fuel a n (deref h limits) threshold k c0 result miss g).2)
      /\
      (forall r c' m,
          (lrc_loop fuel a n (deref h limits) threshold k c0 result miss g).1
            = Ret (Some (r, c', m)) -> c' = c).
Proof.
  intros Hne.
  assert (forall (h : St) c0, h !! counter = Some c0 -> <[counter:=c0]> h = h)
    as Hid by (intros; unfold store in *; now apply list_insert_id).
  induction fuel as [|fuel IH]; intros k result miss h g c0 Hc0;
    pose proof (deref_Some _ _ _ Hc0) as Hd;
    cbn [lrc_loop_st lrc_loop]; run; rewrite Hd.
  - exists c0. rewrite (Hid _ _ Hc0). case_decide; simpl.
    + split; [done|discriminate].
    + split; [done|]. now intros ? ? ? [= _ <- _].
  - case_decide; simpl;
      [|exists c0; rewrite (Hid _ _ Hc0); split;
        [done|now intros ? ? ? [= _ <- _]]].
    case_decide; simpl;
      [exists c0; rewrite (Hid _ _ Hc0); split; [done|discriminate]|].
    destruct (choice a g) as [[s|e|] g1]; simpl;
      try (exists c0; rewrite (Hid _ _ Hc0); split; [done|discriminate]).
    rewrite Hd.
    assert (counter < length h)%nat as Hlt by (eapply lookup_lt_Some, Hc0).
    assert (forall c1 : Dict.t K Z,
               <[counter:=c1]> h !! counter = Some c1) as Hnew
      by (intros; unfold store in *; now apply list_lookup_insert_eq).
    assert (forall (c1 c2 : Dict.t K Z),
               <[counter:=c2]> (<[counter:=c1]> h) = <[counter:=c2]> h)
      as Hover
      by (intros; unfold store in *; apply list_insert_insert_eq).
    destruct (Dict.get s c0) as [cs|].
    + destruct (Dict.get s (deref h limits)) as [lim|]; simpl;
        [|exists c0; rewrite (Hid _ _ Hc0); split; [done|discriminate]].
      case_decide.
      * destruct (IH (k + 1) (result ++ [s]) miss _ g1 _
                    (Hnew (Dict.set s (cs + 1) c0))) as (c & Hrun & Hc).
        rewrite deref_insert_ne in Hrun, Hc by done.
        exists c. rewrite Hrun, Hover. split; [done|exact Hc].
      * apply IH. exact Hc0.
    + destruct (IH (k + 1) (result ++ [s]) miss _ g1 _
                  (Hnew (Dict.set s 1 c0))) as (c & Hrun & Hc).
      rewrite deref_insert_ne in Hrun, Hc by done.
      exists c. rewrite Hrun, Hover. split; [done|exact Hc].
Qed.


(** [limited_random_choice]: the counter is the one new object. *)
Lemma limited_random_choice_st_agrees (a : list K) n limits seed threshold
    (h : St) (g : G) :
  (limits < length h)%nat ->
  exists h',
    limited_random_choice_st a n limits seed threshold h g
    = (counter_at (length h)
         (limited_random_choice a n (deref h limits) seed threshold g).1,
       h',
       (limited_random_choice a n (deref h limits) seed threshold g).2) /\
    h `prefix_of` h'.
Proof.
  intros Hlim. unfold limited_random_choice_st, limited_random_choice. run.
  case_decide; simpl; [now exists h|].
  assert (deref (h ++ [[]]) limits = deref h limits) as Hd.
  { unfold deref, store in *. now rewrite lookup_app_l. }
  destruct (lrc_loop_st_agrees (Z.to_nat threshold) a n limits threshold
              (length h) ltac:(lia) 0 [] 0 (h ++ [[]])
              (seed_if_truthy seed g) [] (lookup_alloc h []))
    as (c & Hrun & _).
  rewrite Hd in Hrun. rewrite Hrun. eexists. split; [reflexivity|].
  unfold store in *.
  rewrite insert_app_r_alt by lia. now apply prefix_app_r.
Qed.

(** The loop over a selection: the edges are the same, and the object
    [req] holds the decremented counts. *)
Lemma assign_stubs_st_agrees (q0 : K) (iter : list K) (req : ref) :
  forall (res : list edge) (h : St) (g : G) d,
    h !! req = Some d ->
    exists d',
      assign_stubs_st q0 iter res req h g
      = (outcome_map fst (assign_stubs q0 iter res d), <[req:=d']> h, g) /\
      (forall res' d'', assign_stubs q0 iter res d = Ret (res', d'') ->
                        d'' = d').
Proof.
  induction iter as [|i iter IH]; intros res h g d Hd;
    cbn [assign_stubs_st assign_stubs]; run.
  - exists d. unfold store in *. rewrite list_insert_id by done.
    split; [done|]. now intros ? ? [= _ <-].
  - rewrite (deref_Some _ _ _ Hd).
    destruct (Dict.get i d) as [v|]; simpl.
    + assert (req < length h)%nat as Hlt by (eapply lookup_lt_Some, Hd).
      destruct (IH (res ++ [(q0, i)]) (<[req:=Dict.set i (v - 1) d]> h) g
                  (Dict.set i (v - 1) d)) as (d' & Hrun & Hd').
      { unfold store in *. now apply list_lookup_insert_eq. }
      exists d'. rewrite Hrun. unfold store in *.
      rewrite list_insert_insert_eq. split; [done|exact Hd'].
    + exists d. unfold store in *. rewrite list_insert_id by done.
      split; [done|discriminate].
Qed.

(** How the store operations run. *)
Lemma run_bind {A B} (m : @M K G A) (f : A -> @M K G B) (h : St) (g : G) :
  (m ≫= f) h g
  = match m h g with
    | (Ret a, h', g') => f a h' g'
    | (Raise e, h', g') => (Raise e, h', g')
    | (OutOfFuel, h', g') => (OutOfFuel, h', g')
    end.
Proof. reflexivity. Qed.

Lemma run_load {B} (r : ref) (f : Dict.t K Z -> @M K G B) (h : St) (g : G) :
  (load r ≫= f) h g = f (deref h r) h g.
Proof. reflexivity. Qed.

Lemma run_alloc {B} (d : Dict.t K Z) (f : ref -> @M K G B) (h : St) (g : G) :
  (alloc d ≫= f) h g = f (length h) (h ++ [d]) g.
Proof. reflexivity. Qed.

Lemma run_store_at {B} (r : ref) (d : Dict.t K Z) (f : unit -> @M K G B)
    (h : St) (g : G) :
  (store_at r d ≫= f) h g = f tt (<[r:=d]> h) g.
Proof. reflexivity. Qed.

(** The rounds of [rewire_network]. *)
Lemma rewire_loop_st_agrees fuel seed :
  forall (req : ref) (res : list edge) (h : St) (g : G) d,
    h !! req = Some d ->
    exists h',
      rewire_loop_st fuel seed req res h g
      = ((rewire_loop fuel seed d res g).1, h',
         (rewire_loop fuel seed d res g).2).
Proof.
  induction fuel as [|fuel IH]; intros req res h g d Hd;
    cbn [rewire_loop_st rewire_loop];
    rewrite run_load, (deref_Some _ _ _ Hd).
  - case_decide; simpl; eauto.
  - case_decide; [|simpl; eauto].
    rewrite run_load, (deref_Some _ _ _ Hd), run_alloc, run_load, deref_alloc,
      run_alloc, run_load, deref_alloc.
    set (P := positive_items (sorted_by_value d)).
    destruct (Dict.last_key P) as [q0|]; [|simpl; eauto].
    rewrite run_load, deref_alloc.
    destruct (Dict.pop q0 P) as [[q1 d1]|]; [|simpl; eauto].
    rewrite run_store_at, run_load.
    rewrite deref_insert_eq by (rewrite !length_app; simpl; lia).
    rewrite run_alloc.
    match goal with
    | |- context [length ?h3] =>
        match h3 with
        | <[_:=_]> _ => set (r3 := length h3); set (h4 := h3 ++ [d1])
        end
    end.
    assert (h4 !! r3 = Some d1) as Hr3 by apply lookup_alloc.
    assert (r3 < length h4)%nat as Hlt by (eapply lookup_lt_Some, Hr3).
    clearbody h4 r3.
    rewrite run_bind. unfold except_ValueError.
    rewrite run_load, (deref_Some _ _ _ Hr3), run_bind.
    destruct (limited_random_choice_st_agrees (Dict.keys d1) q1 r3 seed
                default_threshold h4 g Hlt) as (h5 & Hrun & Hpre).
    rewrite (deref_Some _ _ _ Hr3) in Hrun. rewrite Hrun.
    pose proof (prefix_lookup_Some _ _ _ _ Hr3 Hpre) as Hr5.
    destruct (limited_random_choice (Dict.keys d1) q1 d1 seed
                default_threshold g) as [[[[[iter c] m]|]|[]|] g1];
      simpl; eauto.
    rewrite run_bind.
    destruct (assign_stubs_st_agrees q0 iter r3 res h5 g1 d1 Hr5)
      as (d2 & Hrun2 & Hd2).
    rewrite Hrun2.
    destruct (assign_stubs q0 iter res d1) as [[res' d2']|[]|]; simpl; eauto.
    rewrite (Hd2 _ _ eq_refl). apply IH.
    unfold store in *. apply list_lookup_insert_eq.
    eapply lookup_lt_Some, Hr5.
Qed.

(** [rewire_network] on the object [g] returns what [rewire_network] on
    its content returns, and leaves the stream in the same state. *)
Lemma rewire_network_st_agrees (g : ref) seed threshold (h : St) (rng : G) d :
  h !! g = Some d ->
  exists h',
    rewire_network_st g seed threshold h rng
    = ((rewire_network d seed threshold rng).1, h',
       (rewire_network d seed threshold rng).2).
Proof.
  intros Hg. unfold rewire_network_st, rewire_network.
  rewrite run_load, (deref_Some _ _ _ Hg), run_alloc, run_load, deref_alloc.
  apply rewire_loop_st_agrees, lookup_alloc.
Qed.

Lemma generate_loop_st_agrees fuel (g : ref) n threshold d :
  forall k (results : list (list edge)) (h : St) (rng : G),
    h !! g = Some d ->
    exists h',
      generate_loop_st fuel g n threshold k results h rng
      = ((generate_loop fuel d n threshold k results rng).1, h',
         (generate_loop fuel d n threshold k results rng).2).
Proof.
  induction fuel as [|fuel IH]; intros k results h rng Hg;
    cbn [generate_loop_st generate_loop].
  - case_decide; simpl; eauto.
  - case_decide; [|simpl; eauto].
    rewrite run_bind.
    destruct (rewire_network_st_agrees g None default_rewire_threshold
                h rng d Hg) as (h1 & Hrun).
    rewrite Hrun.
    assert (h1 !! g = Some d) as Hg1.
    { eapply prefix_lookup_Some; [exact Hg|].
      eapply (keeps_rewire_network h g None default_rewire_threshold h rng);
        [done|exact Hrun]. }
    destruct (rewire_network d None default_rewire_threshold rng)
      as [[r|e|] rng1]; simpl; eauto.
    case_decide; simpl; eauto.
Qed.

Lemma generate_networks_st_agrees (g : ref) n seed threshold (h : St)
    (rng : G) d :
  h !! g = Some d ->
  exists h',
    generate_networks_st g n seed threshold h rng
    = ((generate_networks d n seed threshold rng).1, h',
       (generate_networks d n seed threshold rng).2).
Proof.
  intros Hg. unfold generate_networks_st, generate_networks.
  rewrite run_bind. simpl. now apply generate_loop_st_agrees.
Qed.

End Agreement.
(** ** The graph conversions *)

Section CodecFacts.
Context {K : Type} `{EqDecision K}.
Context (K_leb : K -> K -> bool).

Local Abbreviation edge := (K * K)%type.

(** *** Multiplicities and weights *)

Lemma weight_of_app (u v : K) (r1 r2 : list (edge * Z)) :
  weight_of u v (r1 ++ r2) = (weight_of u v r1 + weight_of u v r2)%nat.
Proof. apply sum_list_with_app. Qed.

Lemma multiplicity_app (u v : K) (l1 l2 : list edge) :
  multiplicity u v (l1 ++ l2)
  = (multiplicity u v l1 + multiplicity u v l2)%nat.
Proof. unfold multiplicity. now rewrite filter_app, length_app. Qed.

Lemma multiplicity_replicate (u v : K) (n : nat) (e : edge) :
  multiplicity u v (replicate n e)
  = if decide (e = (u, v) \/ e = (v, u)) then n else 0%nat.
Proof.
  unfold multiplicity. induction n as [|n IH]; simpl.
  - now case_decide.
  - rewrite filter_cons. case_decide; simpl; now rewrite IH.
Qed.

(** Expanding weighted rows gives every pair its total weight. *)
Lemma multiplicity_expand (u v : K) (rows : list (edge * Z)) :
  multiplicity u v
    (flat_map (fun r : edge * Z => replicate (Z.to_nat r.2) r.1) rows)
  = weight_of u v rows.
Proof.
  induction rows as [|r rows IH]; simpl; [done|].
  rewrite multiplicity_app, multiplicity_replicate, IH. reflexivity.
Qed.

(** *** Counting the groups *)

Lemma weight_of_count (u v : K) (e : edge) (rows : Dict.t edge Z) :
  Forall (fun r : edge * Z => 0 <= r.2) rows ->
  weight_of u v (Dict.set e (default 0 (Dict.get e rows) + 1) rows)
  = (weight_of u v rows
     + if decide (e = (u, v) \/ e = (v, u)) then 1 else 0)%nat.
Proof.
  induction rows as [|[e' c'] rows IH]; simpl.
  - intros _. unfold weight_of. simpl. case_decide; simpl; lia.
  - rewrite Forall_cons. simpl. intros [Hc Hrows].
    destruct (decide (e = e')) as [->|Hne].
    + unfold weight_of. simpl. case_decide; simpl; lia.
    + specialize (IH Hrows). unfold weight_of in *. simpl. rewrite IH. lia.
Qed.

Lemma count_nonneg (e : edge) (rows : Dict.t edge Z) :
  Forall (fun r : edge * Z => 0 <= r.2) rows ->
  Forall (fun r : edge * Z => 0 <= r.2)
    (Dict.set e (default 0 (Dict.get e rows) + 1) rows).
Proof.
  intros Hrows. apply Forall_forall. intros p Hp.
  apply elem_of_set in Hp as [Hp| ->].
  - rewrite Forall_forall in Hrows. auto.
  - simpl. destruct (Dict.get e rows) as [c|] eqn:Hget; simpl; [|lia].
    assert (0 <= c); [|lia].
    clear -Hrows Hget. induction rows as [|[e' c'] rows IH]; [done|].
    apply Forall_cons in Hrows as [Hc Hrows]. simpl in *.
    case_decide; [congruence|auto].
Qed.

Lemma count_rows_from (u v : K) (l : list edge) :
  forall rows,
    Forall (fun r : edge * Z => 0 <= r.2) rows ->
    weight_of u v
      (foldl (fun rows e =>
                Dict.set e (default 0 (Dict.get e rows) + 1) rows) rows l)
    = (weight_of u v rows + multiplicity u v l)%nat.
Proof.
  induction l as [|e l IH]; intros rows Hrows; simpl.
  - unfold multiplicity. simpl. lia.
  - rewrite IH by now apply count_nonneg.
    rewrite weight_of_count by done.
    unfold multiplicity. rewrite filter_cons. case_decide; simpl; lia.
Qed.

(** The counts of the groups are the multiplicities of the edge list. *)
Lemma weight_of_count_rows (u v : K) (l : list edge) :
  weight_of u v (count_rows l) = multiplicity u v l.
Proof. unfold count_rows. now rewrite count_rows_from by constructor. Qed.

End CodecFacts.

Section GroupFacts.
Context {K : Type} `{EqDecision K}.
Context (K_leb : K -> K -> bool).

Local Abbreviation edge := (K * K)%type.

Lemma keys_set_elem {V : Type} (k k' : edge) (v : V) (d : Dict.t edge V) :
  k' ∈ Dict.keys (Dict.set k v d) -> k' = k \/ k' ∈ Dict.keys d.
Proof.
  unfold Dict.keys. rewrite !list_elem_of_fmap.
  intros [p [-> Hp]]. apply elem_of_set in Hp as [Hp| ->]; eauto.
Qed.

Lemma count_rows_keys_from (l : list edge) :
  forall rows : Dict.t edge Z,
    NoDup (Dict.keys rows) ->
    let rows' := foldl (fun rows e =>
                   Dict.set e (default 0 (Dict.get e rows) + 1) rows) rows l in
    NoDup (Dict.keys rows') /\
    forall e, e ∈ Dict.keys rows' -> e ∈ Dict.keys rows \/ e ∈ l.
Proof.
  induction l as [|e l IH]; intros rows Hnd; simpl.
  - split; [done|auto].
  - destruct (IH (Dict.set e (default 0 (Dict.get e rows) + 1) rows))
      as [Hnd' Hin]; [now apply NoDup_keys_set|].
    split; [exact Hnd'|]. intros e' He'.
    destruct (Hin e' He') as [Hk|Hl].
    + apply keys_set_elem in Hk as [->|Hk]; [right; left|auto].
    + right. now right.
Qed.

Lemma insert_by_key_weight (u v : K) (r : edge * Z) (rows : Dict.t edge Z) :
  weight_of u v (insert_by_key K_leb r rows)
  = weight_of u v (r :: rows).
Proof.
  induction rows as [|q rows IH]; simpl; [done|].
  destruct (edge_leb K_leb r.1 q.1); [done|].
  unfold weight_of in *. simpl in *. rewrite IH. lia.
Qed.

Lemma insert_by_key_perm (r : edge * Z) (rows : Dict.t edge Z) :
  Dict.keys (insert_by_key K_leb r rows) ≡ₚ r.1 :: Dict.keys rows.
Proof.
  induction rows as [|q rows IH]; simpl; [done|].
  destruct (edge_leb K_leb r.1 q.1); [done|].
  simpl. rewrite IH. apply Permutation_swap.
Qed.

Lemma sorted_rows_weight (u v : K) (rows : Dict.t edge Z) :
  weight_of u v (foldr (insert_by_key K_leb) [] rows)
  = weight_of u v rows.
Proof.
  induction rows as [|r rows IH]; simpl; [done|].
  rewrite insert_by_key_weight. unfold weight_of in *. simpl. now rewrite IH.
Qed.

Lemma sorted_rows_perm (rows : Dict.t edge Z) :
  Dict.keys (foldr (insert_by_key K_leb) [] rows) ≡ₚ Dict.keys rows.
Proof.
  induction rows as [|r rows IH]; simpl; [done|].
  rewrite insert_by_key_perm. now rewrite IH.
Qed.

(** The rows of [groupby_count]: distinct keys, all of them edges of the
    list, and the counts are the multiplicities. *)
Lemma groupby_count_keys (l : list edge) :
  NoDup (Dict.keys (groupby_count K_leb l)) /\
  forall e, e ∈ Dict.keys (groupby_count K_leb l) -> e ∈ l.
Proof.
  unfold groupby_count, count_rows.
  destruct (count_rows_keys_from l []) as [Hnd Hin]; [constructor|].
  simpl in *. split.
  - now rewrite sorted_rows_perm.
  - intros e. rewrite sorted_rows_perm. intros He.
    destruct (Hin e He) as [Hk|Hl]; [|done]. now apply elem_of_nil in Hk.
Qed.

Lemma groupby_count_weight (u v : K) (l : list edge) :
  weight_of u v (groupby_count K_leb l) = multiplicity u v l.
Proof.
  unfold groupby_count. rewrite sorted_rows_weight.
  apply weight_of_count_rows.
Qed.

End GroupFacts.

Section GraphFacts.
Context {K : Type} `{EqDecision K}.

Local Abbreviation edge := (K * K)%type.

(** *** Building the adjacency *)

Lemma adj_add_node (x : K) (g : graph) (u v : K) :
  adj (add_node x g) u v = adj g u v.
Proof.
  unfold add_node, Dict.mem. destruct (Dict.get x g) eqn:Hx; [done|].
  unfold adj. destruct (decide (u = x)) as [->|Hne].
  - now rewrite get_set_eq, Hx.
  - now rewrite get_set_ne by congruence.
Qed.

Lemma get_add_node_same (x : K) (g : graph) :
  is_Some (Dict.get x (add_node x g)).
Proof.
  unfold add_node, Dict.mem. destruct (Dict.get x g) eqn:Hx.
  - rewrite Hx. eauto.
  - rewrite get_set_eq. eauto.
Qed.

Lemma get_add_node_other (x y : K) (g : graph) :
  is_Some (Dict.get y g) -> is_Some (Dict.get y (add_node x g)).
Proof.
  unfold add_node, Dict.mem. destruct (Dict.get x g) eqn:Hx; [done|].
  intros Hy. destruct (decide (x = y)) as [->|Hne].
  - rewrite get_set_eq. eauto.
  - now rewrite get_set_ne.
Qed.

Lemma get_set_adj_Some (a b x : K) (w : Z) (g : graph) :
  is_Some (Dict.get x g) -> is_Some (Dict.get x (set_adj a b w g)).
Proof.
  unfold set_adj. destruct (Dict.get a g) eqn:Ha; [|done].
  intros Hx. destruct (decide (a = x)) as [->|Hne].
  - rewrite get_set_eq. eauto.
  - now rewrite get_set_ne.
Qed.

Lemma adj_set_adj (a b : K) (w : Z) (g : graph) (u v : K) :
  is_Some (Dict.get a g) ->
  adj (set_adj a b w g) u v
  = if decide (u = a /\ v = b) then Some w else adj g u v.
Proof.
  unfold set_adj. intros [nbrs Ha]. rewrite Ha. unfold adj.
  destruct (decide (u = a)) as [->|Hu].
  - rewrite get_set_eq, Ha. simpl.
    destruct (decide (v = b)) as [->|Hv].
    + rewrite get_set_eq. now rewrite decide_True.
    + rewrite get_set_ne by congruence. now rewrite decide_False by tauto.
  - rewrite get_set_ne by congruence. now rewrite decide_False by tauto.
Qed.

(** After a row is added, its pair has the row's weight on both sides,
    and every other pair has what it had. *)
Lemma adj_add_weighted_edge (g : graph) (r : edge * Z) (u v : K) :
  adj (add_weighted_edge g r) u v
  = if decide (r.1 = (u, v) \/ r.1 = (v, u)) then Some r.2 else adj g u v.
Proof.
  destruct r as [[a b] w]. unfold add_weighted_edge. simpl.
  rewrite adj_set_adj
    by (apply get_set_adj_Some, get_add_node_same).
  rewrite adj_set_adj
    by (apply get_add_node_other, get_add_node_same).
  rewrite !adj_add_node.
  repeat case_decide; try done; exfalso;
    repeat match goal with
           | Hx : _ /\ _ |- _ => destruct Hx as [-> ->]
           | Hx : _ \/ _ |- _ => destruct Hx as [[= -> ->]|[= -> ->]]
           end; tauto.
Qed.

Lemma graph_ok_add_node (x : K) (g : graph) :
  NoDup (Dict.keys g) /\ (forall n nbrs, (n, nbrs) ∈ g -> NoDup (Dict.keys nbrs)) ->
  NoDup (Dict.keys (add_node x g)) /\
  (forall n nbrs, (n, nbrs) ∈ add_node x g -> NoDup (Dict.keys nbrs)).
Proof.
  intros [Hnd Hin]. unfold add_node. destruct (Dict.mem x g); [done|].
  split; [now apply NoDup_keys_set|].
  intros n nbrs Hn. apply elem_of_set in Hn as [Hn|[= _ ->]]; [eauto|].
  constructor.
Qed.

Lemma graph_ok_set_adj (a b : K) (w : Z) (g : graph) :
  NoDup (Dict.keys g) /\ (forall n nbrs, (n, nbrs) ∈ g -> NoDup (Dict.keys nbrs)) ->
  NoDup (Dict.keys (set_adj a b w g)) /\
  (forall n nbrs, (n, nbrs) ∈ set_adj a b w g -> NoDup (Dict.keys nbrs)).
Proof.
  intros [Hnd Hin]. unfold set_adj.
  destruct (Dict.get a g) as [nbrs0|] eqn:Ha; [|done].
  split; [now apply NoDup_keys_set|].
  intros n nbrs Hn. apply elem_of_set in Hn as [Hn|[= _ ->]]; [eauto|].
  apply NoDup_keys_set. eapply Hin, get_Some_elem, Ha.
Qed.

Lemma graph_ok_add (g : graph) (r : edge * Z) :
  graph_ok g -> graph_ok (add_weighted_edge g r).
Proof.
  intros (Hnd & Hin & Hsym).
  assert (NoDup (Dict.keys (add_weighted_edge g r)) /\
          (forall n nbrs, (n, nbrs) ∈ add_weighted_edge g r ->
                          NoDup (Dict.keys nbrs))) as [Hnd' Hin'].
  { unfold add_weighted_edge.
    do 2 apply graph_ok_set_adj. do 2 apply graph_ok_add_node. done. }
  split; [exact Hnd'|]. split; [exact Hin'|].
  intros u v. rewrite !adj_add_weighted_edge, Hsym.
  repeat case_decide; try done; exfalso; tauto.
Qed.

Lemma graph_ok_foldl (rows : list (edge * Z)) :
  forall g, graph_ok g -> graph_ok (foldl add_weighted_edge g rows).
Proof.
  induction rows as [|r rows IH]; intros g Hg; simpl; [done|].
  now apply IH, graph_ok_add.
Qed.

Lemma graph_ok_from_pandas (rows : Dict.t edge Z) :
  graph_ok (from_pandas_edgelist rows).
Proof.
  apply graph_ok_foldl. split; [constructor|]. split; [|done].
  intros n nbrs Hn. now apply elem_of_nil in Hn.
Qed.

Lemma weight_of_none (u v : K) (rows : list (edge * Z)) :
  (forall q, q ∈ rows -> ~ (q.1 = (u, v) \/ q.1 = (v, u))) ->
  weight_of u v rows = 0%nat.
Proof.
  induction rows as [|q rows IH]; intros Hno; [done|].
  unfold weight_of in *. simpl.
  rewrite decide_False by (apply Hno; left).
  rewrite IH; [done|]. intros q' Hq'. apply Hno. now right.
Qed.

(** When no pair has two rows, the graph holds the weight of the one row
    of every pair. *)
Lemma from_pandas_weight (u v : K) (rows : Dict.t edge Z) :
  NoDup (Dict.keys rows) ->
  (forall a b, (a, b) ∈ Dict.keys rows -> (b, a) ∈ Dict.keys rows -> a = b) ->
  Z.to_nat (default 0 (adj (from_pandas_edgelist rows) u v))
  = weight_of u v rows.
Proof.
  unfold from_pandas_edgelist.
  induction rows as [|r rows IH] using rev_ind; intros Hnd Hway; [done|].
  unfold Dict.keys in Hnd, Hway. rewrite map_app in Hnd, Hway.
  simpl in Hnd, Hway.
  apply NoDup_app in Hnd as (Hnd & Hfresh & _).
  rewrite foldl_app. simpl. rewrite adj_add_weighted_edge, weight_of_app.
  assert (weight_of u v [r]
          = if decide (r.1 = (u, v) \/ r.1 = (v, u))
            then Z.to_nat r.2 else 0%nat) as ->.
  { unfold weight_of. simpl. case_decide; lia. }
  case_decide as Hr.
  - rewrite weight_of_none; [done|].
    intros q Hq Hmatch.
    assert (q.1 ∈ map fst rows) as Hq1.
    { apply list_elem_of_fmap. eauto. }
    assert (q.1 <> r.1) as Hne.
    { intros Heq. apply (Hfresh _ Hq1). rewrite Heq. left. }
    destruct q as [[x y] c], r as [[a b] w]. simpl in *.
    assert ((x, y) = (a, b) \/ (x, y) = (b, a)) as [Hxy|Hxy].
    { destruct Hr as [[= <- <-]|[= <- <-]], Hmatch as [[= -> ->]|[= -> ->]];
        auto. }
    + contradiction.
    + injection Hxy as -> ->.
      assert (a = b) as ->; [|now apply Hne].
      apply Hway; apply elem_of_app; [right; left|now left].
  - rewrite IH; [lia|exact Hnd|].
    intros a b Ha Hb. apply Hway; apply elem_of_app; now left.
Qed.

End GraphFacts.

Section EdgeView.
Context {K : Type} `{EqDecision K}.
Context (K_leb : K -> K -> bool).

Local Abbreviation edge := (K * K)%type.

(** *** Reading the edges back *)

Lemma weight_of_comm (u v : K) (rows : list (edge * Z)) :
  weight_of u v rows = weight_of v u rows.
Proof.
  unfold weight_of. induction rows as [|r rows IH]; simpl; [done|].
  rewrite IH. repeat case_decide; try done; exfalso; tauto.
Qed.

Lemma adj_cons (n : K) (nbrs : Dict.t K Z) (g : graph) (x y : K) :
  adj ((n, nbrs) :: g) x y
  = if decide (x = n) then Dict.get y nbrs else adj g x y.
Proof. unfold adj. simpl. now case_decide. Qed.

(** A node already visited is in no edge reported later. *)
Lemma edges_data_skip (u v : K) (g : graph) :
  forall seen,
    u ∈ seen -> u ∉ Dict.keys g ->
    weight_of u v (edges_data g seen) = 0%nat.
Proof.
  induction g as [|[n nbrs] g IH]; intros seen Hseen Hkeys; simpl; [done|].
  simpl in Hkeys. apply not_elem_of_cons in Hkeys as [Hne Hkeys].
  rewrite weight_of_app, IH by (try right; done).
  rewrite weight_of_none; [done|].
  intros q Hq. apply list_elem_of_fmap in Hq as [p [-> Hp]].
  apply list_elem_of_filter in Hp as [Hp _]. simpl.
  intros [[= Hn _]|[= _ Hp1]]; [congruence|].
  rewrite Hp1 in Hp. contradiction.
Qed.

(** The edges reported at node [u]: the neighbour [v] once, with its
    weight. *)
Lemma edges_at_node (u v : K) (nbrs : Dict.t K Z) (seen : list K) :
  NoDup (Dict.keys nbrs) -> v ∉ seen ->
  weight_of u v
    (map (fun p : K * Z => ((u, p.1), p.2))
         (filter (fun p : K * Z => p.1 ∉ seen) nbrs))
  = Z.to_nat (default 0 (Dict.get v nbrs)).
Proof.
  intros Hnd Hv.
  transitivity
    (sum_list_with (fun p : K * Z =>
                      if decide (p.1 = v) then Z.to_nat p.2 else 0%nat) nbrs).
  - clear Hnd. unfold weight_of.
    induction nbrs as [|p nbrs IH]; [done|].
    rewrite filter_cons. simpl. case_decide as Hp; simpl; rewrite IH.
    + destruct (decide (p.1 = v)) as [Hpv|Hpv].
      * rewrite decide_True by (left; congruence). done.
      * rewrite decide_False; [done|].
        intros [[= ?]|[= ? ?]]; congruence.
    + rewrite decide_False; [done|].
      intros Hpv. rewrite Hpv in Hp. contradiction.
  - rewrite sum_at_key by done. now destruct (Dict.get v nbrs).
Qed.

Lemma edges_at_other_node (u v n : K) (nbrs : Dict.t K Z) (seen : list K) :
  n <> u -> n <> v ->
  weight_of u v
    (map (fun p : K * Z => ((n, p.1), p.2))
         (filter (fun p : K * Z => p.1 ∉ seen) nbrs))
  = 0%nat.
Proof.
  intros Hu Hv. apply weight_of_none.
  intros q Hq. apply list_elem_of_fmap in Hq as [p [-> Hp]]. simpl.
  intros [[= ? ?]|[= ? ?]]; congruence.
Qed.

(** The edge view reports every pair of unvisited nodes once, with the
    weight the adjacency holds for it. *)
Lemma edges_data_weight (u v : K) (g : graph) :
  forall seen,
    NoDup (Dict.keys g) ->
    (forall n nbrs, (n, nbrs) ∈ g -> NoDup (Dict.keys nbrs)) ->
    (forall x y, x ∉ seen -> y ∉ seen -> adj g x y = adj g y x) ->
    u ∉ seen -> v ∉ seen ->
    weight_of u v (edges_data g seen) = Z.to_nat (default 0 (adj g u v)).
Proof.
  induction g as [|[n nbrs] g IH]; intros seen Hnd Hin Hsym Hu Hv; [done|].
  simpl in Hnd. apply NoDup_cons in Hnd as [Hn Hnd].
  assert (NoDup (Dict.keys nbrs)) as Hnbrs by (apply (Hin n); left).
  simpl. rewrite weight_of_app.
  destruct (decide (n = u)) as [->|Hnu]; [|destruct (decide (n = v)) as [->|Hnv]].
  - rewrite edges_at_node by done.
    rewrite edges_data_skip by (try left; done).
    rewrite adj_cons, decide_True by done. lia.
  - rewrite (weight_of_comm u v), edges_at_node by done.
    rewrite (weight_of_comm u v), edges_data_skip by (try left; done).
    rewrite Hsym by done. rewrite adj_cons, decide_True by done. lia.
  - rewrite edges_at_other_node by done.
    rewrite IH; try done.
    + rewrite adj_cons, decide_False by congruence. done.
    + intros n' nbrs' Hn'. apply (Hin n'). now right.
    + intros x y Hx Hy.
      apply not_elem_of_cons in Hx as [Hxn Hx].
      apply not_elem_of_cons in Hy as [Hyn Hy].
      specialize (Hsym x y Hx Hy).
      now rewrite !adj_cons, !decide_False in Hsym by done.
    + apply not_elem_of_cons. split; [congruence|done].
    + apply not_elem_of_cons. split; [congruence|done].
Qed.

(** The round trip of an edge list without reversed pairs. *)
Lemma round_trip_multiplicity (l : list edge) (u v : K) :
  one_way l ->
  multiplicity u v (convert_weighted_to_multigraph (convert_to_graph K_leb l))
  = multiplicity u v l.
Proof.
  intros Hway. unfold convert_weighted_to_multigraph, convert_to_graph.
  rewrite multiplicity_expand.
  destruct (graph_ok_from_pandas (groupby_count K_leb l)) as (Hnd & Hin & Hsym).
  rewrite edges_data_weight; try done; try apply not_elem_of_nil.
  destruct (groupby_count_keys K_leb l) as [Hkeys Hsub].
  rewrite from_pandas_weight; [apply groupby_count_weight|exact Hkeys|].
  intros a b Hab Hba. apply Hsub in Hab, Hba.
  unfold one_way in Hway. rewrite Forall_forall in Hway.
  exact (Hway (a, b) Hab Hba).
Qed.

(** C8, as amended.  For every edge list in which no two distinct nodes
    are joined in both orientations, converting the list to a weighted
    graph ([convert_to_graph]) and expanding the graph again
    ([convert_weighted_to_multigraph]) keeps the multiset of edges up to
    the order of the endpoints: every pair of nodes is joined by as many
    edges after the round trip as before. *)
Theorem round_trip_one_way (l : list edge) (u v : K) :
  one_way l ->
  multiplicity u v (convert_weighted_to_multigraph (convert_to_graph K_leb l))
  = multiplicity u v l.
Proof. apply round_trip_multiplicity. Qed.

End EdgeView.

(** The doctest of [convert_to_graph]: two edges from ["a"] to ["b"] and
    one to ["c"]. *)
Lemma round_trip_one_way_witness :
  one_way [("a", "b"); ("a", "b"); ("a", "c")]%string /\
  multiplicity "a" "b"
    (convert_weighted_to_multigraph
       (convert_to_graph String.leb [("a", "b"); ("a", "b"); ("a", "c")]))%string
  = multiplicity "a" "b" [("a", "b"); ("a", "b"); ("a", "c")]%string.
Proof.
  assert (one_way [("a", "b"); ("a", "b"); ("a", "c")]%string) as Hway.
  { unfold one_way. refine (bool_decide_unpack _ _). vm_compute. exact I. }
  split; [exact Hway|].
  exact (round_trip_one_way String.leb _ "a"%string "b"%string Hway).
Defined.

(** C8, as stated, fails on a pair given in both orientations: the two
    rows [("a", "b")] and [("b", "a")] each have count 1, the second
    overwrites the weight the first gave to the pair, and the round trip
    of two edges gives back one. *)
Lemma round_trip_loses_reversed_pair :
  let l := [("a", "b"); ("b", "a")]%string in
  convert_weighted_to_multigraph (convert_to_graph String.leb l)
    = [("a", "b")]%string /\
  multiplicity "a"%string "b"%string
    (convert_weighted_to_multigraph (convert_to_graph String.leb l))
  <> multiplicity "a"%string "b"%string l.
Proof. split; [vm_compute; reflexivity|vm_compute; discriminate]. Qed.

(** ** Instances are hub first *)

Section HubFirst.
Context {K : Type} `{EqDecision K}.
Context {G : Type} `{Random G}.
Context (K_leb : K -> K -> bool).

Local Abbreviation edge := (K * K)%type.

Lemma assign_stubs_keys (q0 : K) (iter : list K) :
  forall (res res' : list edge) (req req' : Dict.t K Z),
    assign_stubs q0 iter res req = Ret (res', req') ->
    Dict.keys req' = Dict.keys req.
Proof.
  induction iter as [|i iter IH]; intros res res' req req'; simpl.
  - now intros [= _ <-].
  - destruct (Dict.get i req) as [v|] eqn:Hi; [|discriminate].
    intros Hrun. apply IH in Hrun. rewrite Hrun.
    apply keys_set_present, get_Some_keys. eauto.
Qed.

Lemma keys_round_elem (x q0 : K) (req : Dict.t K Z) :
  x ∈ Dict.keys (Dict.remove q0 (positive_items (sorted_by_value req))) ->
  x ∈ Dict.keys req.
Proof.
  intros Hx. apply keys_remove_elem, keys_filter_elem in Hx.
  unfold Dict.keys in *. now rewrite sorted_by_value_perm in Hx.
Qed.

(** The source of an edge is a hub that has left [req] for good, so the
    edge is never met again the other way round. *)
Lemma rewire_loop_hub_first fuel seed :
  forall (req : Dict.t K Z) (res res' : list edge) (g g' : G),
    rewire_loop fuel seed req res g = (Ret (Edges res'), g') ->
    (forall u v, (u, v) ∈ res -> ((v, u) ∉ res) /\ (u ∉ Dict.keys req)) ->
    forall u v, (u, v) ∈ res' -> (v, u) ∉ res'.
Proof.
  induction fuel as [|fuel IH]; intros req res res' g g'; simpl.
  - case_decide; [discriminate|]. intros [= <- _] Hinv u v Huv.
    now apply Hinv.
  - case_decide; [|intros [= <- _] Hinv u v Huv; now apply Hinv].
    destruct (Dict.last_key _) as [q0|]; [|discriminate].
    unfold Dict.pop. destruct (Dict.get q0 _) as [q1|]; [|discriminate].
    set (req1 := Dict.remove q0 (positive_items (sorted_by_value req))).
    assert (q0 ∉ Dict.keys req1) as Hq0 by apply keys_remove.
    assert (forall x, x ∈ Dict.keys req1 -> x ∈ Dict.keys req) as Hsub
      by (intros x; apply keys_round_elem).
    destruct (limited_random_choice _ _ _ _ _ _) as [[[[[iter c] m]|]|e|] g1]
      eqn:Hlrc.
    + apply limited_random_choice_elem in Hlrc.
      rewrite Forall_forall in Hlrc.
      destruct (assign_stubs q0 iter res req1) as [[res1 req2]|e|] eqn:Has;
        [|destruct e; discriminate|discriminate].
      pose proof (assign_stubs_keys _ _ _ _ _ _ Has) as Hkeys.
      apply assign_stubs_edges in Has. subst res1.
      intros Hrun Hinv. eapply IH; [exact Hrun|].
      intros u v Huv. rewrite Hkeys.
      assert (forall a b, (a, b) ∈ map (pair q0) iter ->
                          a = q0 /\ b ∈ Dict.keys req1) as Hnew.
      { intros a b Hab. apply list_elem_of_fmap in Hab as [i [[= -> ->] Hi]].
        auto. }
      apply elem_of_app in Huv as [Huv|Huv].
      * destruct (Hinv u v Huv) as [Hrev Hu]. split; [|auto].
        rewrite elem_of_app. intros [?|Hvu]; [done|].
        apply Hnew in Hvu as [_ Hu']. auto.
      * apply Hnew in Huv as [-> Hv]. split; [|exact Hq0].
        rewrite elem_of_app. intros [Hvu|Hvu].
        -- apply Hinv in Hvu as [_ Hv']. auto.
        -- apply Hnew in Hvu as [-> _]. contradiction.
    + intros Hrun Hinv. eapply IH; [exact Hrun|].
      intros u v Huv. destruct (Hinv u v Huv). split; auto.
    + destruct e; discriminate.
    + discriminate.
Qed.

(** No instance [rewire_network] returns joins two nodes in both
    orientations. *)
Lemma rewire_network_one_way (g : Dict.t K Z) (seed : option Z)
    (threshold : Z) (rng rng' : G) (res : list edge) :
  rewire_network g seed threshold rng = (Ret (Edges res), rng') ->
  one_way res.
Proof.
  unfold rewire_network. intros Hrun.
  pose proof (rewire_loop_hub_first _ _ _ _ _ _ _ Hrun) as Hhub.
  unfold one_way. apply Forall_forall. intros [u v] Huv Hvu. exfalso.
  eapply Hhub; [|exact Huv|exact Hvu].
  intros a b Hab. now apply elem_of_nil in Hab.
Qed.

(** So the instances of an ensemble, which is what the module converts,
    survive the round trip. *)
Lemma round_trip_of_instance (g : Dict.t K Z) (seed : option Z)
    (threshold : Z) (rng rng' : G) (res : list edge) (u v : K) :
  rewire_network g seed threshold rng = (Ret (Edges res), rng') ->
  multiplicity u v
    (convert_weighted_to_multigraph (convert_to_graph K_leb res))
  = multiplicity u v res.
Proof.
  intros Hrun. eapply round_trip_multiplicity, rewire_network_one_way, Hrun.
Qed.

End HubFirst.

(** ** Degrees are kept, but for the hubs of the rounds given up *)

Section Degrees.
Context {K : Type} `{EqDecision K}.
Context {G : Type} `{Random G}.

Local Abbreviation edge := (K * K)%type.

Lemma degree_of_app (x : K) (es1 es2 : list edge) :
  degree_of x (es1 ++ es2) = degree_of x es1 + degree_of x es2.
Proof.
  unfold degree_of. rewrite map_app.
  induction (map _ es1) as [|z zs IH]; simpl; lia.
Qed.

Lemma occurrences_cons (x i : K) (l : list K) :
  occurrences x (i :: l)
  = (if decide (i = x) then 1 else 0) + occurrences x l.
Proof.
  unfold occurrences. rewrite filter_cons. case_decide; simpl; lia.
Qed.

(** The edges of a round: the hub once per edge, every selected key as
    often as it was selected. *)
Lemma degree_of_round (x q0 : K) (iter : list K) :
  degree_of x (map (pair q0) iter)
  = (if decide (q0 = x) then Z.of_nat (length iter) else 0)
    + occurrences x iter.
Proof.
  induction iter as [|i iter IH].
  - unfold degree_of, occurrences. simpl. case_decide; lia.
  - rewrite occurrences_cons. unfold degree_of in *. simpl map.
    cbn [sum_Z foldr]. unfold sum_Z in IH. rewrite IH. cbn [fst snd length].
    repeat case_decide; lia.
Qed.

Lemma occurrences_none (x : K) (l : list K) :
  x ∉ l -> occurrences x l = 0.
Proof.
  induction l as [|i l IH]; [done|].
  rewrite not_elem_of_cons, occurrences_cons. intros [Hne Hno].
  rewrite decide_False by congruence. rewrite IH by done. lia.
Qed.

(** What is left in [req] does not depend on the edges collected so
    far. *)
Lemma assign_stubs_req (q0 : K) (iter : list K) :
  forall (res res' : list edge) (req req' : Dict.t K Z) (res0 : list edge),
    assign_stubs q0 iter res req = Ret (res', req') ->
    exists res0', assign_stubs q0 iter res0 req = Ret (res0', req').
Proof.
  induction iter as [|i iter IH]; intros res res' req req' res0; simpl.
  - intros [= _ <-]. eauto.
  - destruct (Dict.get i req); [|discriminate]. apply IH.
Qed.

(** What the loop over a selection leaves in [req]. *)
Lemma assign_stubs_get (q0 : K) (iter : list K) :
  forall (res res' : list edge) (req req' : Dict.t K Z) (x : K),
    assign_stubs q0 iter res req = Ret (res', req') ->
    Dict.get x req' = (fun v => v - occurrences x iter) <$> Dict.get x req.
Proof.
  induction iter as [|i iter IH]; intros res res' req req' x; simpl.
  - intros [= _ <-]. unfold occurrences. simpl.
    destruct (Dict.get x req); simpl; [f_equal; lia|done].
  - destruct (Dict.get i req) as [v|] eqn:Hi; [|discriminate].
    intros Hrun. rewrite (IH _ _ _ _ x Hrun), occurrences_cons.
    destruct (decide (i = x)) as [->|Hne].
    + rewrite get_set_eq, Hi. simpl. f_equal. lia.
    + rewrite get_set_ne by done.
      destruct (Dict.get x req); simpl; [f_equal; lia|done].
Qed.

(** The pool of a round: unique keys, positive values, and for every node
    the stubs it had, as long as no value is negative. *)
Lemma round_pool (req : Dict.t K Z) :
  NoDup (Dict.keys req) ->
  Forall (fun p : K * Z => 0 <= p.2) req ->
  let P := positive_items (sorted_by_value req) in
  NoDup (Dict.keys P) /\
  (forall p, p ∈ P -> 0 < p.2) /\
  (forall x, default 0 (Dict.get x P) = default 0 (Dict.get x req)).
Proof.
  intros Hnd Hpos.
  assert (NoDup (Dict.keys (sorted_by_value req))) as Hnd'.
  { unfold Dict.keys in *. now rewrite sorted_by_value_perm. }
  simpl. split; [now apply NoDup_keys_filter|]. split.
  - intros p Hp. now apply list_elem_of_filter in Hp as [Hp _].
  - intros x. unfold positive_items. rewrite get_filter by done.
    rewrite (get_perm x _ req (sorted_by_value_perm req) Hnd').
    destruct (Dict.get x req) as [v|] eqn:Hx; [|done].
    case_decide as Hv; [done|]. simpl in *.
    apply get_Some_elem in Hx. rewrite Forall_forall in Hpos.
    specialize (Hpos _ Hx). simpl in Hpos. lia.
Qed.

Lemma rewire_loop_degrees fuel seed :
  forall (req : Dict.t K Z) (res res' : list edge) (g g' : G),
    rewire_loop fuel seed req res g = (Ret (Edges res'), g') ->
    NoDup (Dict.keys req) ->
    Forall (fun p : K * Z => 0 <= p.2) req ->
    forall x,
      x ∉ dropped_hubs fuel seed req g ->
      degree_of x res' = degree_of x res + default 0 (Dict.get x req).
Proof.
  assert (forall (req : Dict.t K Z) x,
             Forall (fun p : K * Z => 0 <= p.2) req ->
             ~ (0 < length (positive_items req))%nat ->
             default 0 (Dict.get x req) = 0) as Hdone.
  { intros req x Hpos Hlen.
    destruct (Dict.get x req) as [v|] eqn:Hx; [|done]. simpl.
    apply get_Some_elem in Hx. rewrite Forall_forall in Hpos.
    specialize (Hpos _ Hx). simpl in Hpos.
    destruct (decide (0 < v)) as [Hv|Hv]; [|lia].
    exfalso. apply Hlen.
    assert ((x, v) ∈ positive_items req) as Hin
      by (apply list_elem_of_filter; auto).
    destruct (positive_items req); [now apply elem_of_nil in Hin|simpl; lia]. }
  induction fuel as [|fuel IH]; intros req res res' g g'; simpl.
  - case_decide; [discriminate|]. intros [= <- _] Hnd Hpos x _.
    rewrite Hdone by done. lia.
  - case_decide as Hlen;
      [|intros [= <- _] Hnd Hpos x _; rewrite Hdone by done; lia].
    intros Hrun Hnd Hpos.
    destruct (round_pool req Hnd Hpos) as (HndP & HposP & HgetP).
    set (P := positive_items (sorted_by_value req)) in *.
    destruct (Dict.last_key P) as [q0|]; [|discriminate].
    unfold Dict.pop in *.
    destruct (Dict.get q0 P) as [q1|] eqn:Hq1; [|discriminate].
    set (req1 := Dict.remove q0 P) in *.
    assert (0 < q1) as Hq1pos
      by (apply get_Some_elem in Hq1; apply (HposP _ Hq1)).
    assert (NoDup (Dict.keys req1)) as Hnd1 by now apply NoDup_keys_remove.
    assert (forall s lim, Dict.get s req1 = Some lim -> 0 < lim) as Hpos1.
    { intros s lim Hs. unfold req1 in Hs. rewrite get_remove in Hs.
      case_decide; [discriminate|]. apply get_Some_elem in Hs.
      apply (HposP _ Hs). }
    assert (forall x, default 0 (Dict.get x req)
                      = if decide (x = q0) then q1
                        else default 0 (Dict.get x req1)) as Hsplit.
    { intros x. rewrite <- HgetP. unfold req1. rewrite get_remove.
      case_decide; [subst; now rewrite Hq1|done]. }
    destruct (limited_random_choice _ _ _ _ _ _) as [[[[[iter c] m]|]|e|] g1]
      eqn:Hlrc; [| |destruct e; discriminate|discriminate].
    + pose proof (limited_random_choice_elem _ _ _ _ _ _ _ _ _ _ Hlrc) as Hin.
      rewrite Forall_forall in Hin.
      apply limited_random_choice_counted in Hlrc
          as (Hlim & _ & Hlen1 & Hocc); [| |lia].
      2:{ intros s lim _ Hs. apply Hpos1 in Hs. lia. }
      destruct (assign_stubs q0 iter res req1) as [[res1 req2]|e|] eqn:Has;
        [|destruct e; discriminate|discriminate].
      destruct (assign_stubs_req q0 iter _ _ _ _ [] Has) as [res0 Has0].
      rewrite Has0.
      pose proof (assign_stubs_keys _ _ _ _ _ _ Has) as Hkeys.
      pose proof (fun x => assign_stubs_get _ _ _ _ _ _ x Has) as Hget2.
      apply assign_stubs_edges in Has. subst res1.
      assert (forall x v, Dict.get x req1 = Some v -> occurrences x iter <= v)
        as Hroom.
      { intros x v Hx. rewrite <- Hocc.
        destruct (Dict.get x c) as [cs|] eqn:Hc; simpl.
        - eapply Hlim; eauto.
        - apply Hpos1 in Hx. lia. }
      intros x Hx.
      rewrite (IH _ _ _ _ _ Hrun); [| | |exact Hx].
      * rewrite degree_of_app, degree_of_round, Hsplit, Hget2.
        destruct (decide (x = q0)) as [->|Hne].
        -- rewrite decide_True by done.
           assert (Dict.get q0 req1 = None) as Hnone
             by (apply get_None_keys, keys_remove).
           rewrite Hnone. simpl.
           assert (occurrences q0 iter = 0) as Hzero; [|lia].
           apply occurrences_none. intros Hq.
           apply (keys_remove q0 P), Hin, Hq.
        -- rewrite !decide_False by congruence.
           destruct (Dict.get x req1) as [v|] eqn:Hx1; simpl; [lia|].
           assert (occurrences x iter = 0) as Hzero; [|lia].
           apply occurrences_none. intros Hq. apply Hin in Hq.
           apply get_None_keys in Hx1. contradiction.
      * now rewrite Hkeys.
      * apply Forall_forall. intros [y v2] Hy. simpl.
        apply elem_get in Hy; [|now rewrite Hkeys].
        rewrite Hget2 in Hy.
        destruct (Dict.get y req1) as [v|] eqn:Hv; [|discriminate].
        injection Hy as <-. specialize (Hroom _ _ Hv). lia.
    + intros x Hx. apply not_elem_of_cons in Hx as [Hne Hx].
      rewrite (IH _ _ _ _ _ Hrun); [|done| |exact Hx].
      * rewrite Hsplit, decide_False by done. done.
      * apply Forall_forall. intros [y v] Hy. apply elem_get in Hy; [|done].
        apply Hpos1 in Hy. simpl. lia.
Qed.

(** On a degree sequence without negative entries, an instance that is
    returned gives every node the degree it had in the input, except for
    the hubs of the rounds in which the sampler gave up. *)
Lemma rewire_network_degrees (g : Dict.t K Z) (seed : option Z)
    (threshold : Z) (rng rng' : G) (res : list edge) (x : K) :
  NoDup (Dict.keys g) ->
  Forall (fun p : K * Z => 0 <= p.2) g ->
  rewire_network g seed threshold rng = (Ret (Edges res), rng') ->
  x ∉ exhausted_hubs g seed rng ->
  degree_of x res = default 0 (Dict.get x g).
Proof.
  intros Hnd Hpos Hrun Hx. unfold rewire_network, exhausted_hubs in *.
  rewrite (rewire_loop_degrees _ _ _ _ _ _ _ Hrun); [| | |exact Hx].
  - unfold positive_items. rewrite get_filter by done.
    change (degree_of x []) with 0.
    destruct (Dict.get x g) as [v|] eqn:Hv; [|done].
    case_decide as Hpv; [done|]. simpl in *.
    apply get_Some_elem in Hv. rewrite Forall_forall in Hpos.
    specialize (Hpos _ Hv). simpl in Hpos. lia.
  - now apply NoDup_keys_filter.
  - apply Forall_forall. intros p Hp.
    apply list_elem_of_filter in Hp as [Hp _]. lia.
Qed.

(** When no round was given up, all degrees are those of the input. *)
Lemma rewire_network_degrees_all (g : Dict.t K Z) (seed : option Z)
    (threshold : Z) (rng rng' : G) (res : list edge) :
  NoDup (Dict.keys g) ->
  Forall (fun p : K * Z => 0 <= p.2) g ->
  rewire_network g seed threshold rng = (Ret (Edges res), rng') ->
  exhausted_hubs g seed rng = [] ->
  forall x, degree_of x res = default 0 (Dict.get x g).
Proof.
  intros Hnd Hpos Hrun Hnone x.
  eapply rewire_network_degrees; eauto.
  rewrite Hnone. apply not_elem_of_nil.
Qed.

End Degrees.

(** Scenario B keeps all degrees. *)
Example scenario_B_degrees :
  exhausted_hubs abc None [1%nat; 1%nat; 0%nat] = [] /\
  forall x,
    degree_of x [("a", "b"); ("a", "b"); ("a", "c")]%string
    = default 0 (Dict.get x abc).
Proof.
  assert (exhausted_hubs abc None [1%nat; 1%nat; 0%nat] = []) as Hnone
    by (vm_compute; reflexivity).
  split; [exact Hnone|].
  apply (rewire_network_degrees_all abc None 10000 [1%nat; 1%nat; 0%nat] []).
  - refine (bool_decide_unpack _ _). vm_compute. exact I.
  - refine (bool_decide_unpack _ _). vm_compute. exact I.
  - vm_compute. reflexivity.
  - exact Hnone.
Qed.
(** ** More about [limited_random_choice] *)

Section SamplerMore.
Context {K : Type} `{EqDecision K}.
Context {G : Type} `{Random G}.

(** X1. Every key of a selection that [limited_random_choice] returns is
    an element of the pool [a] it was given. *)
Theorem sampler_selects_pool_keys (a : list K) (n : Z) (limits : Dict.t K Z)
    (seed : option Z) (threshold : Z) (g g' : G) (r : list K)
    (c : Dict.t K Z) (m : Z) :
  limited_random_choice a n limits seed threshold g
    = (Ret (Some (r, c, m)), g') ->
  Forall (fun s => s ∈ a) r.
Proof. apply limited_random_choice_elem. Qed.

(** X2. When every limit of a key of the pool is at least 1 and [n] is
    not negative, a selection that is returned has exactly [n] keys, the
    count map counts the occurrences of every key in it, the counts sum
    to [n], and no count is above the limit of its key. *)
Theorem sampler_within_positive_limits (a : list K) (n : Z)
    (limits : Dict.t K Z) (seed : option Z) (threshold : Z) (g g' : G)
    (r : list K) (c : Dict.t K Z) (m : Z) :
  (forall s lim, s ∈ a -> Dict.get s limits = Some lim -> 1 <= lim) ->
  0 <= n ->
  limited_random_choice a n limits seed threshold g
    = (Ret (Some (r, c, m)), g') ->
  (forall s cs lim,
      Dict.get s c = Some cs -> Dict.get s limits = Some lim -> cs <= lim) /\
  sum_Z (Dict.values c) = n /\
  Z.of_nat (length r) = n /\
  (forall s, default 0 (Dict.get s c) = occurrences s r).
Proof. apply limited_random_choice_counted. Qed.

(** X3. When nothing is asked for ([n <= 0], and [n] within the sum of
    the limits), [limited_random_choice] returns the empty selection, the
    empty count map and no miss; the stream is seeded if a seed is given
    and no element is drawn, whatever the pool and the threshold are. *)
Theorem sampler_nothing_to_choose (a : list K) (n : Z) (limits : Dict.t K Z)
    (seed : option Z) (threshold : Z) (g : G) :
  n <= 0 ->
  n <= sum_Z (Dict.values limits) ->
  limited_random_choice a n limits seed threshold g
  = (Ret (Some ([], [], 0)), seed_if_truthy seed g).
Proof.
  intros Hn Hsum. unfold limited_random_choice.
  rewrite decide_False by lia.
  destruct (Z.to_nat threshold); simpl; now rewrite decide_False by lia.
Qed.

Lemma lrc_loop_draws fuel (a : list K) (n : Z) (limits : Dict.t K Z)
    (threshold : Z) :
  forall k counter result miss (g g' : G) r c m,
    lrc_loop fuel a n limits threshold k counter result miss g
      = (Ret (Some (r, c, m)), g') ->
    k = Z.of_nat (length result) + miss ->
    0 <= miss ->
    k < threshold ->
    0 <= m /\ Z.of_nat (length r) + m < threshold.
Proof.
  induction fuel as [|fuel IH]; intros k counter result miss g g' r c m; simpl.
  - case_decide; [discriminate|]. intros [= <- _ <-]. lia.
  - case_decide; [|intros [= <- _ <-]; lia].
    case_decide; [discriminate|].
    destruct (choice a g) as [[s| |] g1]; try discriminate.
    destruct (Dict.get s counter) as [cs|].
    + destruct (Dict.get s limits) as [lim|]; [|discriminate].
      case_decide; intros Hrun Hk Hmiss Hthr;
        (eapply IH; [exact Hrun| | |]); rewrite ?length_app; simpl; lia.
    + intros Hrun Hk Hmiss Hthr.
      (eapply IH; [exact Hrun| | |]); rewrite ?length_app; simpl; lia.
Qed.

(** X4. With a threshold of at least 1, a selection that is returned took
    fewer draws than the threshold: the selected keys and the misses
    together are below it, and the miss count is not negative. *)
Theorem sampler_draws_below_threshold (a : list K) (n : Z)
    (limits : Dict.t K Z) (seed : option Z) (threshold : Z) (g g' : G)
    (r : list K) (c : Dict.t K Z) (m : Z) :
  1 <= threshold ->
  limited_random_choice a n limits seed threshold g
    = (Ret (Some (r, c, m)), g') ->
  0 <= m /\ Z.of_nat (length r) + m < threshold.
Proof.
  intros Hthr. unfold limited_random_choice. case_decide; [discriminate|].
  intros Hrun. eapply lrc_loop_draws; [exact Hrun| | |]; simpl; lia.
Qed.

(** X5. Called on the keys of its own limit map, with a threshold of at
    least 1, [limited_random_choice] ends in one of three ways: a returned
    selection, the exhausted outcome [None], or the [ValueError] of a
    request above the sum of the limits (with the stream untouched); it
    raises no [KeyError] and no [IndexError] and never runs on. *)
Theorem sampler_outcomes_on_own_keys (limits : Dict.t K Z) (n : Z)
    (seed : option Z) (threshold : Z) (g : G) :
  1 <= threshold ->
  (exists r g',
      limited_random_choice (Dict.keys limits) n limits seed threshold g
      = (Ret r, g')) \/
  limited_random_choice (Dict.keys limits) n limits seed threshold g
  = (Raise ValueError, g).
Proof. apply limited_random_choice_returns. Qed.

(** X6. A pool key without a limit: the first draw of it is accepted, the
    second one looks up [limits[s]] and raises [KeyError].  With the
    one-element pool [[s]], [s] not among the limits, at least two keys
    asked for and a threshold of at least 3, the call ends in
    [KeyError]. *)
Theorem sampler_missing_limit_key (s : K) (n : Z) (limits : Dict.t K Z)
    (seed : option Z) (threshold : Z) (g : G) :
  Dict.get s limits = None ->
  2 <= n <= sum_Z (Dict.values limits) ->
  3 <= threshold ->
  exists g', limited_random_choice [s] n limits seed threshold g
             = (Raise KeyError, g').
Proof.
  intros Hs Hn Hthr. unfold limited_random_choice.
  rewrite decide_False by lia.
  assert (forall g0 : G, exists g1, choice [s] g0 = (Ret s, g1)) as Hdraw.
  { intros g0. destruct (choice_nonempty [s] g0) as (s' & g1 & Hc & Hin);
      [done|]. apply list_elem_of_singleton in Hin as ->. eauto. }
  destruct (Z.to_nat threshold) as [|[|fuel]] eqn:Hfuel; [lia|lia|].
  cbn [lrc_loop Dict.values map sum_Z foldr].
  rewrite decide_True by lia. rewrite decide_False by lia.
  destruct (Hdraw (seed_if_truthy seed g)) as [g1 ->].
  cbn [Dict.get Dict.set Dict.values map sum_Z foldr snd].
  rewrite decide_True by lia. rewrite decide_False by lia.
  destruct (Hdraw g1) as [g2 ->].
  cbn [Dict.get]. rewrite decide_True by done. rewrite Hs. eauto.
Qed.

(** X7. An empty pool: when at least one key is asked for, the limits
    allow it and the threshold is at least 2, the first draw is
    [random.choice([])], which raises [IndexError]; the stream has only
    been seeded. *)
Theorem sampler_empty_pool (n : Z) (limits : Dict.t K Z) (seed : option Z)
    (threshold : Z) (g : G) :
  1 <= n <= sum_Z (Dict.values limits) ->
  2 <= threshold ->
  limited_random_choice [] n limits seed threshold g
  = (Raise IndexError, seed_if_truthy seed g).
Proof.
  intros Hn Hthr. unfold limited_random_choice.
  rewrite decide_False by lia.
  destruct (Z.to_nat threshold) as [|fuel] eqn:Hfuel; [lia|].
  cbn [lrc_loop Dict.values map sum_Z foldr].
  rewrite decide_True by lia. now rewrite decide_False by lia.
Qed.

Lemma limited_random_choice_invalid_rq (a : list K) (n : Z)
    (limits : Dict.t K Z) (seed : option Z) (threshold : Z) (g : G) :
  n > sum_Z (Dict.values limits) ->
  limited_random_choice a n limits seed threshold g = (Raise ValueError, g).
Proof.
  intros Hn. unfold limited_random_choice. now rewrite decide_True.
Qed.

(** With a seed other than zero and a request within the limits, the
    call does not depend on the state the stream was in before. *)
Lemma limited_random_choice_seeded (a : list K) (n : Z) (limits : Dict.t K Z)
    (seed threshold : Z) (g1 g2 : G) :
  seed <> 0 ->
  n <= sum_Z (Dict.values limits) ->
  limited_random_choice a n limits (Some seed) threshold g1
  = limited_random_choice a n limits (Some seed) threshold g2.
Proof.
  intros Hseed Hn. unfold limited_random_choice, seed_if_truthy.
  destruct (decide (n > sum_Z (Dict.values limits))); [lia|].
  destruct (decide (seed = 0)); [contradiction|reflexivity].
Qed.

End SamplerMore.

Lemma sampler_selects_pool_keys_witness :
  limited_random_choice [1; 2; 3] 2 [(1, 1); (2, 1); (3, 2)] None
    default_threshold [2%nat; 2%nat]
  = (Ret (Some ([3; 3], [(3, 2)], 0)), []) /\
  Forall (fun s => s ∈ [1; 2; 3]) [3; 3].
Proof.
  assert (limited_random_choice [1; 2; 3] 2 [(1, 1); (2, 1); (3, 2)] None
            default_threshold [2%nat; 2%nat]
          = (Ret (Some ([3; 3], [(3, 2)], 0)), [])) as Hrun
    by (vm_compute; reflexivity).
  split; [exact Hrun|].
  exact (sampler_selects_pool_keys _ _ _ _ _ _ _ _ _ _ Hrun).
Defined.

Lemma sampler_within_positive_limits_witness :
  let limits := [(1, 1); (2, 1); (3, 2)] in
  (forall s lim, s ∈ [1; 2; 3] -> Dict.get s limits = Some lim -> 1 <= lim) /\
  0 <= 2 /\
  limited_random_choice [1; 2; 3] 2 limits None default_threshold
    [2%nat; 2%nat]
  = (Ret (Some ([3; 3], [(3, 2)], 0)), []) /\
  (forall s cs lim,
      Dict.get s [(3, 2)] = Some cs -> Dict.get s limits = Some lim ->
      cs <= lim) /\
  sum_Z (Dict.values [(3, 2)]) = 2 /\
  Z.of_nat (length [3; 3]) = 2 /\
  (forall s, default 0 (Dict.get s [(3, 2)]) = occurrences s [3; 3]).
Proof.
  assert (forall s lim, s ∈ [1; 2; 3] ->
            Dict.get s [(1, 1); (2, 1); (3, 2)] = Some lim -> 1 <= lim)
    as Hpos.
  { intros s lim Hs. rewrite !elem_of_cons in Hs.
    destruct Hs as [->|[->|[->|Hs]]]; [| | |now apply elem_of_nil in Hs];
      simpl; intros [= <-]; lia. }
  assert (limited_random_choice [1; 2; 3] 2 [(1, 1); (2, 1); (3, 2)] None
            default_threshold [2%nat; 2%nat]
          = (Ret (Some ([3; 3], [(3, 2)], 0)), [])) as Hrun
    by (vm_compute; reflexivity).
  assert (0 <= 2) as Hn by lia.
  split; [exact Hpos|]. split; [exact Hn|]. split; [exact Hrun|].
  exact (sampler_within_positive_limits _ _ _ _ _ _ _ _ _ _ Hpos Hn Hrun).
Defined.

Lemma sampler_nothing_to_choose_witness :
  0 <= 0 /\
  0 <= sum_Z (Dict.values [(1, 1)]) /\
  limited_random_choice [1; 2] 0 [(1, 1)] (Some 5) 10 [7%nat]
  = (Ret (Some ([], [], 0)), seed_if_truthy (Some 5) [7%nat]).
Proof.
  assert (0 <= 0) as Hn by lia.
  assert (0 <= sum_Z (Dict.values [(1, 1)])) as Hsum by (simpl; lia).
  split; [exact Hn|]. split; [exact Hsum|].
  exact (sampler_nothing_to_choose [1; 2] 0 [(1, 1)] (Some 5) 10 [7%nat]
           Hn Hsum).
Defined.

Lemma sampler_draws_below_threshold_witness :
  1 <= default_threshold /\
  limited_random_choice ["a"; "b"; "c"]%string 2
    [("a", 3); ("b", 2); ("c", 1)]%string None default_threshold
    [2%nat; 2%nat; 0%nat]
  = (Ret (Some (["c"; "a"], [("c", 1); ("a", 1)], 1)%string), []) /\
  0 <= 1 /\ Z.of_nat (length ["c"; "a"]%string) + 1 < default_threshold.
Proof.
  assert (1 <= default_threshold) as Hthr by (unfold default_threshold; lia).
  assert (limited_random_choice ["a"; "b"; "c"]%string 2
            [("a", 3); ("b", 2); ("c", 1)]%string None default_threshold
            [2%nat; 2%nat; 0%nat]
          = (Ret (Some (["c"; "a"], [("c", 1); ("a", 1)], 1)%string), []))
    as Hrun by (vm_compute; reflexivity).
  split; [exact Hthr|]. split; [exact Hrun|].
  exact (sampler_draws_below_threshold _ _ _ _ _ _ _ _ _ _ Hthr Hrun).
Defined.

Lemma sampler_outcomes_on_own_keys_witness :
  1 <= 10 /\
  ((exists r g',
       limited_random_choice (Dict.keys [(1, 1); (2, 2)]) 2 [(1, 1); (2, 2)]
         None 10 [1%nat]
       = (Ret r, g')) \/
   limited_random_choice (Dict.keys [(1, 1); (2, 2)]) 2 [(1, 1); (2, 2)]
     None 10 [1%nat]
   = (Raise ValueError, [1%nat])).
Proof.
  assert (1 <= 10) as Hthr by lia.
  split; [exact Hthr|].
  exact (sampler_outcomes_on_own_keys [(1, 1); (2, 2)] 2 None 10 [1%nat]
           Hthr).
Defined.

Lemma sampler_missing_limit_key_witness :
  Dict.get 9 [(1, 5)] = None /\
  2 <= 2 <= sum_Z (Dict.values [(1, 5)]) /\
  3 <= 10 /\
  exists g', limited_random_choice [9] 2 [(1, 5)] None 10 ([] : list nat)
             = (Raise KeyError, g').
Proof.
  assert (Dict.get 9 [(1, 5)] = None) as Hs by reflexivity.
  assert (2 <= 2 <= sum_Z (Dict.values [(1, 5)])) as Hn by (simpl; lia).
  assert (3 <= 10) as Hthr by lia.
  split; [exact Hs|]. split; [exact Hn|]. split; [exact Hthr|].
  exact (sampler_missing_limit_key 9 2 [(1, 5)] None 10 [] Hs Hn Hthr).
Defined.

Lemma sampler_empty_pool_witness :
  1 <= 1 <= sum_Z (Dict.values [(1, 5)]) /\
  2 <= 10 /\
  limited_random_choice [] 1 [(1, 5)] (Some 3) 10 [4%nat]
  = (Raise IndexError, seed_if_truthy (Some 3) [4%nat]).
Proof.
  assert (1 <= 1 <= sum_Z (Dict.values [(1, 5)])) as Hn by (simpl; lia).
  assert (2 <= 10) as Hthr by lia.
  split; [exact Hn|]. split; [exact Hthr|].
  exact (sampler_empty_pool 1 [(1, 5)] (Some 3) 10 [4%nat] Hn Hthr).
Defined.

(** ** More about [rewire_network] *)

Section RewireMore.
Context {K : Type} `{EqDecision K}.
Context {G : Type} `{Random G}.

Local Abbreviation edge := (K * K)%type.

(** X8. [rewire_network] returns an edge list or [NaN] on every degree
    sequence, seed and random stream: the loop ends after at most as many
    rounds as there are nodes of positive degree, and no [KeyError] or
    [IndexError] escapes from it. *)
Theorem rewire_network_never_raises (g : Dict.t K Z) (seed : option Z)
    (threshold : Z) (rng : G) :
  exists r rng', rewire_network g seed threshold rng = (Ret r, rng').
Proof. apply rewire_network_returns. Qed.

(** X9. On a degree sequence without negative entries, an instance that
    [rewire_network] returns gives every node the degree the input gives
    it (0 for a node that is not in the input), except for the hubs of
    the rounds in which the sampler returned [None]. *)
Theorem rewire_network_keeps_degrees (g : Dict.t K Z) (seed : option Z)
    (threshold : Z) (rng rng' : G) (res : list edge) (x : K) :
  NoDup (Dict.keys g) ->
  Forall (fun p : K * Z => 0 <= p.2) g ->
  rewire_network g seed threshold rng = (Ret (Edges res), rng') ->
  x ∉ exhausted_hubs g seed rng ->
  degree_of x res = default 0 (Dict.get x g).
Proof. apply rewire_network_degrees. Qed.

(** X10. In an instance that [rewire_network] returns, the source of
    every edge is the hub of its round and is never a target afterwards:
    no two nodes are joined in both orientations. *)
Theorem rewire_network_hub_first (g : Dict.t K Z) (seed : option Z)
    (threshold : Z) (rng rng' : G) (res : list edge) (u v : K) :
  rewire_network g seed threshold rng = (Ret (Edges res), rng') ->
  (u, v) ∈ res -> (v, u) ∉ res.
Proof.
  unfold rewire_network. intros Hrun.
  apply (rewire_loop_hub_first _ _ _ _ _ _ _ Hrun).
  intros a b Hab. now apply elem_of_nil in Hab.
Qed.

Lemma positive_items_none (g : Dict.t K Z) :
  Forall (fun p : K * Z => p.2 <= 0) g -> positive_items g = [].
Proof.
  unfold positive_items. induction 1 as [|p g Hp Hg IH]; [done|].
  rewrite filter_cons. rewrite decide_False by lia. exact IH.
Qed.

(** X11. When no node has a positive degree (the empty dictionary
    included), [rewire_network] returns the empty edge list and leaves the
    random stream as it was, seed or no seed. *)
Theorem rewire_network_nothing_to_do (g : Dict.t K Z) (seed : option Z)
    (threshold : Z) (rng : G) :
  Forall (fun p : K * Z => p.2 <= 0) g ->
  rewire_network g seed threshold rng = (Ret (Edges []), rng).
Proof.
  intros Hg. unfold rewire_network. now rewrite positive_items_none.
Qed.

(** The endpoints of the edges stay among the keys the loop started
    from. *)
Lemma rewire_loop_nodes (S : K -> Prop) fuel seed :
  forall (req : Dict.t K Z) (res res' : list edge) (g g' : G),
    rewire_loop fuel seed req res g = (Ret (Edges res'), g') ->
    (forall x, x ∈ Dict.keys req -> S x) ->
    Forall (fun e : edge => S e.1 /\ S e.2) res ->
    Forall (fun e : edge => S e.1 /\ S e.2) res'.
Proof.
  induction fuel as [|fuel IH]; intros req res res' g g'; simpl.
  - case_decide; [discriminate|]. now intros [= <- _].
  - case_decide; [|now intros [= <- _]].
    destruct (Dict.last_key _) as [q0|] eqn:Hq0; [|discriminate].
    apply last_key_elem in Hq0.
    unfold Dict.pop. destruct (Dict.get q0 _) as [q1|]; [|discriminate].
    set (req1 := Dict.remove q0 (positive_items (sorted_by_value req))).
    assert (forall x, x ∈ Dict.keys req1 -> x ∈ Dict.keys req) as Hsub
      by (intros x; apply keys_round_elem).
    assert (q0 ∈ Dict.keys req) as Hhub.
    { apply keys_filter_elem in Hq0. unfold Dict.keys in *.
      now rewrite sorted_by_value_perm in Hq0. }
    destruct (limited_random_choice _ _ _ _ _ _) as [[[[[iter c] m]|]|e|] g1]
      eqn:Hlrc; [| |destruct e; discriminate|discriminate].
    + apply limited_random_choice_elem in Hlrc.
      destruct (assign_stubs q0 iter res req1) as [[res1 req2]|e|] eqn:Has;
        [|destruct e; discriminate|discriminate].
      pose proof (assign_stubs_keys _ _ _ _ _ _ Has) as Hkeys.
      apply assign_stubs_edges in Has. subst res1.
      intros Hrun Hreq Hres. eapply IH; [exact Hrun| |].
      * intros x Hx. rewrite Hkeys in Hx. auto.
      * apply Forall_app. split; [exact Hres|].
        apply Forall_fmap. eapply Forall_impl; [exact Hlrc|].
        intros i Hi. simpl. auto.
    + intros Hrun Hreq Hres. eapply IH; [exact Hrun| |exact Hres]. auto.
Qed.

(** X12. Every edge of an instance that [rewire_network] returns joins
    two keys of the input dictionary, both of positive degree there. *)
Theorem rewire_network_joins_input_nodes (g : Dict.t K Z) (seed : option Z)
    (threshold : Z) (rng rng' : G) (res : list edge) :
  rewire_network g seed threshold rng = (Ret (Edges res), rng') ->
  Forall (fun e : edge =>
            (exists v, (e.1, v) ∈ g /\ 0 < v) /\
            (exists v, (e.2, v) ∈ g /\ 0 < v)) res.
Proof.
  unfold rewire_network. intros Hrun.
  apply (rewire_loop_nodes
           (fun x => exists v, (x, v) ∈ g /\ 0 < v) _ _ _ _ _ _ _ Hrun);
    [|constructor].
  intros x Hx. unfold Dict.keys in Hx.
  apply list_elem_of_fmap in Hx as [[k v] [-> Hp]].
  apply list_elem_of_filter in Hp as [Hv Hp]. eauto.
Qed.

(** With a seed other than zero every round reseeds the stream before
    its first draw, so what is returned does not depend on the stream. *)
Lemma rewire_loop_seeded fuel (seed : Z) :
  seed <> 0 ->
  forall (req : Dict.t K Z) (res : list edge) (g1 g2 : G),
    (rewire_loop fuel (Some seed) req res g1).1
    = (rewire_loop fuel (Some seed) req res g2).1.
Proof.
  intros Hseed. induction fuel as [|fuel IH]; intros req res g1 g2; simpl.
  - now case_decide.
  - case_decide; [|done].
    destruct (Dict.last_key _) as [q0|]; [|done].
    destruct (Dict.pop q0 _) as [[q1 req1]|]; [|done].
    destruct (decide (q1 > sum_Z (Dict.values req1))) as [Hbig|Hfit].
    + now rewrite !limited_random_choice_invalid_rq by exact Hbig.
    + rewrite (limited_random_choice_seeded _ _ _ _ _ g1 g2) by (done || lia).
      reflexivity.
Qed.

(** X13. With a seed other than zero, what [rewire_network] returns does
    not depend on the state of the random stream: the seed is passed on to
    the sampler, which reseeds the stream in every round. *)
Theorem rewire_network_seeded (g : Dict.t K Z) (seed threshold : Z)
    (rng1 rng2 : G) :
  seed <> 0 ->
  (rewire_network g (Some seed) threshold rng1).1
  = (rewire_network g (Some seed) threshold rng2).1.
Proof. intros Hseed. unfold rewire_network. now apply rewire_loop_seeded. Qed.


(** *** A hub that the other nodes cannot serve *)

Lemma sum_Z_perm (xs ys : list Z) : xs ≡ₚ ys -> sum_Z xs = sum_Z ys.
Proof. induction 1; simpl in *; lia. Qed.

Lemma sum_Z_nonneg (d : Dict.t K Z) :
  0 <= sum_Z (Dict.values (positive_items d)).
Proof.
  unfold positive_items. induction d as [|p d IH]; simpl; [done|].
  rewrite filter_cons. case_decide; simpl; lia.
Qed.

Lemma positive_items_all (d : Dict.t K Z) :
  Forall (fun p : K * Z => 0 < p.2) d -> positive_items d = d.
Proof.
  unfold positive_items. induction 1 as [|p d Hp Hd IH]; [done|].
  rewrite filter_cons. rewrite decide_True by done. now rewrite IH.
Qed.

Lemma positive_items_positive (d : Dict.t K Z) :
  Forall (fun p : K * Z => 0 < p.2) (positive_items d).
Proof.
  apply Forall_forall. intros p Hp.
  now apply list_elem_of_filter in Hp as [Hp _].
Qed.

Lemma sum_values_remove (k : K) (v : Z) (d : Dict.t K Z) :
  NoDup (Dict.keys d) -> Dict.get k d = Some v ->
  sum_Z (Dict.values (Dict.remove k d)) = sum_Z (Dict.values d) - v.
Proof.
  induction d as [|[k' v'] d IH]; simpl; [discriminate|].
  rewrite NoDup_cons. intros [Hno Hnd].
  destruct (decide (k = k')) as [->|Hne].
  - intros [= ->].
    assert (Dict.remove k' d = d) as ->; [|lia].
    clear -Hno. induction d as [|[k1 v1] d IH]; simpl; [done|].
    simpl in Hno. apply not_elem_of_cons in Hno as [Hne Hno].
    rewrite decide_False by done. now rewrite IH.
  - intros Hget. simpl. rewrite IH by done. lia.
Qed.

Lemma insert_by_value_sorted (p : K * Z) (l : Dict.t K Z) :
  StronglySorted (fun a b : K * Z => a.2 <= b.2) l ->
  StronglySorted (fun a b : K * Z => a.2 <= b.2) (insert_by_value p l).
Proof.
  induction l as [|q l IH]; simpl; intros Hl.
  - repeat constructor.
  - apply StronglySorted_cons in Hl as [Hq Hl]. case_decide as Hpq.
    + apply StronglySorted_cons. split.
      * constructor; [done|]. eapply Forall_impl; [exact Hq|].
        simpl. intros x Hx. lia.
      * now apply StronglySorted_cons.
    + apply StronglySorted_cons. split; [|auto].
      rewrite insert_by_value_perm. constructor; [lia|done].
Qed.

(** [sorted] puts the items in ascending order of their values. *)
Lemma sorted_by_value_sorted (d : Dict.t K Z) :
  StronglySorted (fun a b : K * Z => a.2 <= b.2) (sorted_by_value d).
Proof.
  induction d as [|p d IH]; simpl; [constructor|].
  now apply insert_by_value_sorted.
Qed.

(** When one node has more stubs than all the others together, the first
    round asks the sampler for more than the limits allow. *)
Lemma rewire_network_infeasible (g : Dict.t K Z) (seed : option Z)
    (threshold : Z) (rng : G) (k : K) (M : Z) :
  NoDup (Dict.keys g) ->
  (k, M) ∈ g ->
  sum_Z (Dict.values (positive_items g)) < 2 * M ->
  rewire_network g seed threshold rng = (Ret NaN, rng).
Proof.
  intros Hnd Hk Hsum.
  pose proof (sum_Z_nonneg g) as Hnn.
  assert (0 < M) as HM by lia.
  unfold rewire_network.
  set (req := positive_items g) in *.
  assert ((k, M) ∈ req) as Hkreq by (apply list_elem_of_filter; auto).
  pose proof (positive_items_positive g) as Hpos. fold req in Hpos.
  assert (NoDup (Dict.keys req)) as Hndreq by now apply NoDup_keys_filter.
  set (P := sorted_by_value req).
  assert (P ≡ₚ req) as Hperm by apply sorted_by_value_perm.
  assert (positive_items P = P) as HP.
  { apply positive_items_all. now rewrite Hperm. }
  assert (NoDup (Dict.keys P)) as HndP
    by (unfold Dict.keys; now rewrite Hperm).
  assert ((k, M) ∈ P) as HkP by now rewrite Hperm.
  destruct (last P) as [[q0 q1]|] eqn:Hlast;
    [|apply last_None in Hlast; rewrite Hlast in HkP;
      now apply elem_of_nil in HkP].
  apply last_Some in Hlast as [P' HP'].
  assert (M <= q1) as HMq.
  { pose proof (sorted_by_value_sorted req) as Hsorted. fold P in Hsorted.
    rewrite HP' in HkP, Hsorted.
    apply elem_of_app in HkP as [HkP|HkP].
    - assert ((q0, q1) ∈ [(q0, q1)]) as Hq by left.
      exact (StronglySorted_app_1_elem_of _ _ _ (k, M) (q0, q1)
               Hsorted HkP Hq).
    - apply list_elem_of_singleton in HkP. now injection HkP as _ ->. }
  assert (Dict.last_key P = Some q0) as Hq0.
  { unfold Dict.last_key, Dict.keys. rewrite HP', map_app. simpl.
    apply last_snoc. }
  assert (Dict.get q0 P = Some q1) as Hq1.
  { apply elem_get; [done|]. rewrite HP'. apply elem_of_app. right. left. }
  destruct (length req) as [|fuel] eqn:Hlen.
  { apply length_zero_iff_nil in Hlen. rewrite Hlen in Hkreq.
    now apply elem_of_nil in Hkreq. }
  apply (rewire_loop_invalid_request _ _ req (Dict.remove q0 P) _ _ _ q0 q1).
  - rewrite positive_items_all by done. lia.
  - fold P. now rewrite HP.
  - fold P. rewrite HP. unfold Dict.pop. now rewrite Hq1.
  - apply limited_random_choice_invalid_rq.
    rewrite (sum_values_remove _ _ _ HndP Hq1).
    assert (sum_Z (Dict.values P) = sum_Z (Dict.values req)) as ->.
    { apply sum_Z_perm. unfold Dict.values. now rewrite Hperm. }
    lia.
Qed.

(** X14. When one node of the input has more stubs than all the other
    nodes of positive degree together, [rewire_network] returns [NaN]: the
    first round asks the sampler for more keys than the limits allow.  No
    element is drawn and the random stream stays as it was. *)
Theorem rewire_network_hub_too_large (g : Dict.t K Z) (seed : option Z)
    (threshold : Z) (rng : G) (k : K) (M : Z) :
  NoDup (Dict.keys g) ->
  (k, M) ∈ g ->
  sum_Z (Dict.values (positive_items g)) < 2 * M ->
  rewire_network g seed threshold rng = (Ret NaN, rng).
Proof. apply rewire_network_infeasible. Qed.

End RewireMore.

Lemma abc_run :
  rewire_network abc None 10000 [1%nat; 1%nat; 0%nat]
  = (Ret (Edges abc_instance), []).
Proof. vm_compute. reflexivity. Qed.

Lemma abc_unique : NoDup (Dict.keys abc).
Proof. refine (bool_decide_unpack _ _). vm_compute. exact I. Qed.

Lemma abc_nonneg : Forall (fun p : string * Z => 0 <= p.2) abc.
Proof. refine (bool_decide_unpack _ _). vm_compute. exact I. Qed.

Lemma rewire_network_keeps_degrees_witness :
  NoDup (Dict.keys abc) /\
  Forall (fun p : string * Z => 0 <= p.2) abc /\
  rewire_network abc None 10000 [1%nat; 1%nat; 0%nat]
    = (Ret (Edges abc_instance), []) /\
  ("a"%string ∉ exhausted_hubs abc None [1%nat; 1%nat; 0%nat]) /\
  degree_of "a"%string abc_instance = default 0 (Dict.get "a"%string abc).
Proof.
  assert ("a"%string ∉ exhausted_hubs abc None [1%nat; 1%nat; 0%nat]) as Hx.
  { assert (exhausted_hubs abc None [1%nat; 1%nat; 0%nat] = []) as ->
      by (vm_compute; reflexivity).
    apply not_elem_of_nil. }
  split; [exact abc_unique|]. split; [exact abc_nonneg|].
  split; [exact abc_run|]. split; [exact Hx|].
  exact (rewire_network_keeps_degrees abc None 10000 _ _ _ "a"%string
           abc_unique abc_nonneg abc_run Hx).
Defined.

Lemma rewire_network_hub_first_witness :
  rewire_network abc None 10000 [1%nat; 1%nat; 0%nat]
    = (Ret (Edges abc_instance), []) /\
  (("a", "b")%string ∈ abc_instance) /\
  (("b", "a")%string ∉ abc_instance).
Proof.
  assert (("a", "b")%string ∈ abc_instance) as Hab by left.
  split; [exact abc_run|]. split; [exact Hab|].
  exact (rewire_network_hub_first abc None 10000 _ _ _ _ _ abc_run Hab).
Defined.

Lemma rewire_network_nothing_to_do_witness :
  Forall (fun p : string * Z => p.2 <= 0) [("a", 0); ("b", -1)]%string /\
  rewire_network [("a", 0); ("b", -1)]%string (Some 3) 10000 [4%nat]
  = (Ret (Edges []), [4%nat]).
Proof.
  assert (Forall (fun p : string * Z => p.2 <= 0)
            [("a", 0); ("b", -1)]%string) as Hg
    by (repeat constructor; simpl; lia).
  split; [exact Hg|].
  exact (rewire_network_nothing_to_do _ (Some 3) 10000 [4%nat] Hg).
Defined.

Lemma rewire_network_joins_input_nodes_witness :
  rewire_network abc None 10000 [1%nat; 1%nat; 0%nat]
    = (Ret (Edges abc_instance), []) /\
  Forall (fun e : string * string =>
            (exists v, (e.1, v) ∈ abc /\ 0 < v) /\
            (exists v, (e.2, v) ∈ abc /\ 0 < v)) abc_instance.
Proof.
  split; [exact abc_run|].
  exact (rewire_network_joins_input_nodes abc None 10000 _ _ _ abc_run).
Defined.

Lemma rewire_network_seeded_witness :
  5 <> 0 /\
  (rewire_network abc (Some 5) 10000 [0%nat]).1
  = (rewire_network abc (Some 5) 10000 [1%nat; 1%nat]).1.
Proof.
  assert (5 <> 0) as Hseed by lia.
  split; [exact Hseed|].
  exact (rewire_network_seeded abc 5 10000 [0%nat] [1%nat; 1%nat] Hseed).
Defined.

Lemma star3_unique : NoDup (Dict.keys star3).
Proof. refine (bool_decide_unpack _ _). vm_compute. exact I. Qed.

Lemma rewire_network_hub_too_large_witness :
  NoDup (Dict.keys star3) /\
  ("a"%string, 3) ∈ star3 /\
  sum_Z (Dict.values (positive_items star3)) < 2 * 3 /\
  rewire_network star3 (Some 1450) 10000 [7%nat]
  = (Ret NaN, [7%nat]).
Proof.
  assert (("a"%string, 3) ∈ star3) as Hk by left.
  assert (sum_Z (Dict.values (positive_items star3)) < 2 * 3) as Hsum
    by (vm_compute; reflexivity).
  split; [exact star3_unique|]. split; [exact Hk|]. split; [exact Hsum|].
  exact (rewire_network_hub_too_large star3 (Some 1450) 10000 [7%nat]
           "a"%string 3 star3_unique Hk Hsum).
Defined.

(** ** More about [generate_networks] *)

Section GenerateMore.
Context {K : Type} `{EqDecision K}.
Context {G : Type} `{Random G}.

Local Abbreviation edge := (K * K)%type.

(** X15. All or nothing: for [n >= 0], an ensemble that
    [generate_networks] returns has exactly [n] instances. *)
Theorem ensemble_has_n_instances (g : Dict.t K Z) (n : Z)
    (seed : option Z) (threshold : Z) (rng rng' : G)
    (out : list (list edge)) :
  0 <= n ->
  generate_networks g n seed threshold rng = (Ret (Some out), rng') ->
  Z.of_nat (length out) = n.
Proof. apply generate_networks_all_or_nothing. Qed.

(** X16. When no instance is asked for ([n <= 0]), [generate_networks]
    returns the empty ensemble without a single attempt, whatever the
    budget is; the stream is seeded if a seed is given and not used. *)
Theorem ensemble_of_none (g : Dict.t K Z) (n : Z) (seed : option Z)
    (threshold : Z) (rng : G) :
  n <= 0 ->
  generate_networks g n seed threshold rng
  = (Ret (Some []), seed_if_truthy seed rng).
Proof.
  intros Hn. unfold generate_networks.
  destruct (Z.to_nat threshold); simpl; now rewrite decide_False by lia.
Qed.

Lemma generate_loop_budget (g : Dict.t K Z) (n threshold : Z) :
  threshold <= n ->
  forall fuel k (results : list (list edge)) (rng : G),
    0 <= k < threshold ->
    threshold <= k + Z.of_nat fuel ->
    Z.of_nat (length results) <= k ->
    exists rng', generate_loop fuel g n threshold k results rng
                 = (Ret None, rng').
Proof.
  intros Hn. induction fuel as [|fuel IH]; intros k results rng Hk Hfuel Hlen;
    [lia|].
  simpl. rewrite decide_True by lia.
  destruct (rewire_network_returns g None default_rewire_threshold rng)
    as (r & rng1 & ->).
  case_decide; [eauto|]. apply IH; [lia|lia|].
  destruct r; [rewrite length_app; simpl|]; lia.
Qed.

(** X17. A budget that does not exceed the number of instances asked for
    ([1 <= threshold <= n]) always ends in [None]: the attempt counter
    reaches the budget at the latest with the attempt that would complete
    the ensemble. *)
Theorem ensemble_budget_too_small (g : Dict.t K Z) (n : Z)
    (seed : option Z) (threshold : Z) (rng : G) :
  1 <= threshold <= n ->
  exists rng', generate_networks g n seed threshold rng = (Ret None, rng').
Proof.
  intros Hthr. unfold generate_networks.
  apply generate_loop_budget; simpl; lia.
Qed.

(** X18. With a budget of at least 1, [generate_networks] ends with an
    ensemble or with [None] after at most as many attempts as the budget
    allows; no exception escapes from it. *)
Theorem ensemble_or_none (g : Dict.t K Z) (n : Z) (seed : option Z)
    (threshold : Z) (rng : G) :
  1 <= threshold ->
  exists r rng', generate_networks g n seed threshold rng = (Ret r, rng').
Proof. apply generate_networks_returns. Qed.

Lemma generate_loop_members (P : list edge -> Prop) (g : Dict.t K Z)
    (n threshold : Z) :
  (forall (rng rng' : G) r,
      rewire_network g None default_rewire_threshold rng
        = (Ret (Edges r), rng') -> P r) ->
  forall fuel k (results out : list (list edge)) (rng rng' : G),
    generate_loop fuel g n threshold k results rng = (Ret (Some out), rng') ->
    Forall P results -> Forall P out.
Proof.
  intros HP. induction fuel as [|fuel IH]; intros k results out rng rng';
    simpl.
  - case_decide; [discriminate|]. now intros [= <- _].
  - case_decide; [|now intros [= <- _]].
    destruct (rewire_network g None default_rewire_threshold rng)
      as [[r|e|] rng1] eqn:Hr; try discriminate.
    case_decide; [discriminate|].
    intros Hrun Hres. eapply IH; [exact Hrun|].
    destruct r as [res|]; [|exact Hres].
    apply Forall_app. split; [exact Hres|]. constructor; [|constructor].
    eapply HP, Hr.
Qed.

(** X19. Every instance of an ensemble that [generate_networks] returns
    is an edge list that [rewire_network] returned for the same degree
    sequence, called without a seed from some state of the stream. *)
Theorem ensemble_members_are_rewirings (g : Dict.t K Z) (n : Z)
    (seed : option Z) (threshold : Z) (rng rng' : G)
    (out : list (list edge)) :
  generate_networks g n seed threshold rng = (Ret (Some out), rng') ->
  Forall (fun r => exists rng1 rng2 : G,
              rewire_network g None default_rewire_threshold rng1
              = (Ret (Edges r), rng2)) out.
Proof.
  unfold generate_networks. intros Hrun.
  eapply generate_loop_members; [|exact Hrun|constructor].
  intros rng1 rng2 r Hr. eauto.
Qed.

Lemma generate_loop_infeasible (g : Dict.t K Z) (n threshold : Z) :
  (forall rng : G,
      rewire_network g None default_rewire_threshold rng = (Ret NaN, rng)) ->
  1 <= n ->
  forall fuel k (rng : G),
    0 <= k < threshold ->
    threshold <= k + Z.of_nat fuel ->
    generate_loop fuel g n threshold k [] rng = (Ret None, rng).
Proof.
  intros Hnan Hn. induction fuel as [|fuel IH]; intros k rng Hk Hfuel; [lia|].
  simpl. rewrite decide_True by lia. rewrite Hnan.
  case_decide; [done|]. apply IH; lia.
Qed.

(** X20. When one node of the degree sequence has more stubs than all the
    other nodes together, at least one instance is asked for and the
    budget is at least 1, every attempt fails and [generate_networks]
    returns [None]; the stream has been seeded, if a seed was given, and
    not used. *)
Theorem ensemble_infeasible (g : Dict.t K Z) (n : Z) (seed : option Z)
    (threshold : Z) (rng : G) (k : K) (M : Z) :
  NoDup (Dict.keys g) ->
  (k, M) ∈ g ->
  sum_Z (Dict.values (positive_items g)) < 2 * M ->
  1 <= n ->
  1 <= threshold ->
  generate_networks g n seed threshold rng
  = (Ret None, seed_if_truthy seed rng).
Proof.
  intros Hnd Hk Hsum Hn Hthr. unfold generate_networks.
  apply generate_loop_infeasible; [|lia|lia|lia].
  intros rng0. eapply rewire_network_infeasible; eauto.
Qed.

End GenerateMore.

Lemma abc_ensemble_run :
  generate_networks abc 3 None default_infinite_loop_threshold
    [1; 1; 0; 0; 1; 1; 1; 0; 1]%nat
  = (Ret (Some [[("a", "b"); ("a", "b"); ("a", "c")];
                [("a", "c"); ("a", "b"); ("a", "b")];
                [("a", "b"); ("a", "c"); ("a", "b")]]%string), []).
Proof. vm_compute. reflexivity. Qed.

Lemma ensemble_has_n_instances_witness :
  0 <= 3 /\
  generate_networks abc 3 None default_infinite_loop_threshold
    [1; 1; 0; 0; 1; 1; 1; 0; 1]%nat
  = (Ret (Some [[("a", "b"); ("a", "b"); ("a", "c")];
                [("a", "c"); ("a", "b"); ("a", "b")];
                [("a", "b"); ("a", "c"); ("a", "b")]]%string), []) /\
  Z.of_nat (length [[("a", "b"); ("a", "b"); ("a", "c")];
                    [("a", "c"); ("a", "b"); ("a", "b")];
                    [("a", "b"); ("a", "c"); ("a", "b")]]%string) = 3.
Proof.
  assert (0 <= 3) as Hn by lia.
  split; [exact Hn|]. split; [exact abc_ensemble_run|].
  exact (ensemble_has_n_instances abc 3 None _ _ _ _ Hn abc_ensemble_run).
Defined.

Lemma ensemble_of_none_witness :
  0 <= 0 /\
  generate_networks abc 0 (Some 4) 0 [9%nat]
  = (Ret (Some []), seed_if_truthy (Some 4) [9%nat]).
Proof.
  assert (0 <= 0) as Hn by lia.
  split; [exact Hn|].
  exact (ensemble_of_none abc 0 (Some 4) 0 [9%nat] Hn).
Defined.

Lemma ensemble_budget_too_small_witness :
  1 <= 2 <= 2 /\
  exists rng', generate_networks pair11 2 None 2 ([] : list nat)
               = (Ret None, rng').
Proof.
  assert (1 <= 2 <= 2) as Hthr by lia.
  split; [exact Hthr|].
  exact (ensemble_budget_too_small pair11 2 None 2 [] Hthr).
Defined.

Lemma ensemble_or_none_witness :
  1 <= 10 /\
  exists r rng', generate_networks star3 2 (Some 1450) 10 ([] : list nat)
                 = (Ret r, rng').
Proof.
  assert (1 <= 10) as Hthr by lia.
  split; [exact Hthr|].
  exact (ensemble_or_none star3 2 (Some 1450) 10 [] Hthr).
Defined.

Lemma ensemble_members_are_rewirings_witness :
  generate_networks abc 3 None default_infinite_loop_threshold
    [1; 1; 0; 0; 1; 1; 1; 0; 1]%nat
  = (Ret (Some [[("a", "b"); ("a", "b"); ("a", "c")];
                [("a", "c"); ("a", "b"); ("a", "b")];
                [("a", "b"); ("a", "c"); ("a", "b")]]%string), []) /\
  Forall (fun r => exists rng1 rng2 : list nat,
              rewire_network abc None default_rewire_threshold rng1
              = (Ret (Edges r), rng2))
    [[("a", "b"); ("a", "b"); ("a", "c")];
     [("a", "c"); ("a", "b"); ("a", "b")];
     [("a", "b"); ("a", "c"); ("a", "b")]]%string.
Proof.
  split; [exact abc_ensemble_run|].
  exact (ensemble_members_are_rewirings abc 3 None _ _ _ _ abc_ensemble_run).
Defined.

Lemma ensemble_infeasible_witness :
  NoDup (Dict.keys star3) /\
  ("a"%string, 3) ∈ star3 /\
  sum_Z (Dict.values (positive_items star3)) < 2 * 3 /\
  1 <= 2 /\
  1 <= 10 /\
  generate_networks star3 2 (Some 1450) 10 ([] : list nat)
  = (Ret None, seed_if_truthy (Some 1450) []).
Proof.
  assert (("a"%string, 3) ∈ star3) as Hk by left.
  assert (sum_Z (Dict.values (positive_items star3)) < 2 * 3) as Hsum
    by (vm_compute; reflexivity).
  assert (1 <= 2) as Hn by lia.
  assert (1 <= 10) as Hthr by lia.
  split; [exact star3_unique|]. split; [exact Hk|]. split; [exact Hsum|].
  split; [exact Hn|]. split; [exact Hthr|].
  exact (ensemble_infeasible star3 2 (Some 1450) 10 [] "a"%string 3
           star3_unique Hk Hsum Hn Hthr).
Defined.

(** ** Degrees of a multigraph and [generate_networks_from_graph] *)

Section MultiGraphFacts.
Context {K : Type} `{EqDecision K}.
Context {G : Type} `{Random G}.

Local Abbreviation edge := (K * K)%type.

Lemma get_bump (x y : K) (d : Dict.t K Z) :
  default 0 (Dict.get x (bump y d))
  = default 0 (Dict.get x d) + if decide (y = x) then 1 else 0.
Proof.
  unfold bump. destruct (decide (y = x)) as [->|Hne].
  - rewrite get_set_eq. simpl. lia.
  - rewrite get_set_ne by done. lia.
Qed.

Lemma sum_bump (y : K) (d : Dict.t K Z) :
  sum_Z (Dict.values (bump y d)) = sum_Z (Dict.values d) + 1.
Proof. unfold bump. rewrite sum_values_set. lia. Qed.

Lemma bump_positive (y : K) (d : Dict.t K Z) :
  Forall (fun p : K * Z => 1 <= p.2) d ->
  Forall (fun p : K * Z => 1 <= p.2) (bump y d).
Proof.
  intros Hd. apply Forall_forall. intros p Hp.
  apply elem_of_set in Hp as [Hp| ->].
  - rewrite Forall_forall in Hd. auto.
  - simpl. destruct (Dict.get y d) as [c|] eqn:Hget; simpl; [|lia].
    apply get_Some_elem in Hget. rewrite Forall_forall in Hd.
    specialize (Hd _ Hget). simpl in Hd. lia.
Qed.

Lemma degree_of_cons (x : K) (e : edge) (es : list edge) :
  degree_of x (e :: es)
  = (if decide (e.1 = x) then 1 else 0) + (if decide (e.2 = x) then 1 else 0)
    + degree_of x es.
Proof. reflexivity. Qed.

Lemma multigraph_degree_from (es : list edge) :
  forall d : Dict.t K Z,
    NoDup (Dict.keys d) ->
    Forall (fun p : K * Z => 1 <= p.2) d ->
    let d' := foldl (fun d (e : edge) => bump e.2 (bump e.1 d)) d es in
    NoDup (Dict.keys d') /\
    Forall (fun p : K * Z => 1 <= p.2) d' /\
    (forall x, default 0 (Dict.get x d')
               = default 0 (Dict.get x d) + degree_of x es) /\
    sum_Z (Dict.values d')
    = sum_Z (Dict.values d) + 2 * Z.of_nat (length es).
Proof.
  induction es as [|e es IH]; intros d Hnd Hpos; simpl.
  - repeat split; try done; [|lia].
    intros x. unfold degree_of. simpl. lia.
  - destruct (IH (bump e.2 (bump e.1 d))) as (Hnd' & Hpos' & Hget & Hsum).
    + unfold bump. now do 2 apply NoDup_keys_set.
    + now do 2 apply bump_positive.
    + split; [exact Hnd'|]. split; [exact Hpos'|]. split.
      * intros x. rewrite Hget, !get_bump, degree_of_cons. lia.
      * rewrite Hsum, !sum_bump. lia.
Qed.

(** X21. [dict(g.degree())] of a multigraph lists every node once, with
    the number of edge ends at it (both ends of every edge count, so a
    self-loop counts twice); a node without an edge is not listed, and
    every listed degree is at least 1. *)
Theorem multigraph_degree_counts_ends (es : list edge) :
  NoDup (Dict.keys (multigraph_degree es)) /\
  Forall (fun p : K * Z => 1 <= p.2) (multigraph_degree es) /\
  forall x, default 0 (Dict.get x (multigraph_degree es)) = degree_of x es.
Proof.
  unfold multigraph_degree.
  destruct (multigraph_degree_from es []) as (Hnd & Hpos & Hget & _);
    [constructor|constructor|].
  split; [exact Hnd|]. split; [exact Hpos|].
  intros x. rewrite (Hget x). simpl. lia.
Qed.

(** X22. The degrees of a multigraph add up to twice the number of its
    edges. *)
Theorem multigraph_degree_sum (es : list edge) :
  sum_Z (Dict.values (multigraph_degree es)) = 2 * Z.of_nat (length es).
Proof.
  unfold multigraph_degree.
  destruct (multigraph_degree_from es []) as (_ & _ & _ & Hsum);
    [constructor|constructor|].
  rewrite Hsum. simpl. lia.
Qed.

(** X23. [generate_networks_from_graph] keeps the degrees of the source
    graph: every instance of an ensemble it returns is a rewiring of the
    graph's degree sequence in which every node has the degree it has in
    the source graph, except for the hubs of the rounds of that rewiring
    in which the sampler returned [None]. *)
Theorem from_graph_keeps_degrees (es : list edge) (n : Z) (seed : option Z)
    (threshold : Z) (rng rng' : G) (out : list (list edge)) :
  generate_networks_from_graph es n seed threshold rng
    = (Ret (Some out), rng') ->
  Forall (fun r => exists rng1 rng2 : G,
              rewire_network (multigraph_degree es) None
                default_rewire_threshold rng1 = (Ret (Edges r), rng2) /\
              forall x,
                x ∉ exhausted_hubs (multigraph_degree es) None rng1 ->
                degree_of x r = degree_of x es) out.
Proof.
  unfold generate_networks_from_graph, generate_networks. intros Hrun.
  eapply generate_loop_members; [|exact Hrun|constructor].
  intros rng1 rng2 r Hr. exists rng1, rng2. split; [exact Hr|].
  intros x Hx.
  destruct (multigraph_degree_from es []) as (Hnd & Hpos & Hget & _);
    [constructor|constructor|].
  assert (Forall (fun p : K * Z => 0 <= p.2) (multigraph_degree es))
    as Hnn by (eapply Forall_impl; [exact Hpos|simpl; intros; lia]).
  rewrite (rewire_network_degrees _ _ _ _ _ _ x Hnd Hnn Hr Hx).
  unfold multigraph_degree. rewrite (Hget x). simpl. lia.
Qed.

End MultiGraphFacts.

(** The doctest of [convert_weighted_to_multigraph]: the degrees of the
    expanded graph. *)
Example degrees_of_expanded_graph :
  multigraph_degree
    (convert_weighted_to_multigraph
       [("a", [("b", 2); ("c", 1)]); ("b", [("a", 2)]); ("c", [("a", 1)])])
  = abc.
Proof. vm_compute. reflexivity. Qed.

Lemma from_graph_keeps_degrees_witness :
  generate_networks_from_graph abc_instance 3 None
    default_infinite_loop_threshold [1; 1; 0; 0; 1; 1; 1; 0; 1]%nat
  = (Ret (Some [[("a", "b"); ("a", "b"); ("a", "c")];
                [("a", "c"); ("a", "b"); ("a", "b")];
                [("a", "b"); ("a", "c"); ("a", "b")]]%string), []) /\
  Forall (fun r => exists rng1 rng2 : list nat,
              rewire_network (multigraph_degree abc_instance) None
                default_rewire_threshold rng1 = (Ret (Edges r), rng2) /\
              forall x,
                x ∉ exhausted_hubs (multigraph_degree abc_instance) None rng1 ->
                degree_of x r = degree_of x abc_instance)
    [[("a", "b"); ("a", "b"); ("a", "c")];
     [("a", "c"); ("a", "b"); ("a", "b")];
     [("a", "b"); ("a", "c"); ("a", "b")]]%string.
Proof.
  assert (generate_networks_from_graph abc_instance 3 None
            default_infinite_loop_threshold [1; 1; 0; 0; 1; 1; 1; 0; 1]%nat
          = (Ret (Some [[("a", "b"); ("a", "b"); ("a", "c")];
                        [("a", "c"); ("a", "b"); ("a", "b")];
                        [("a", "b"); ("a", "c"); ("a", "b")]]%string), []))
    as Hrun by (vm_compute; reflexivity).
  split; [exact Hrun|].
  exact (from_graph_keeps_degrees abc_instance 3 None _ _ _ _ Hrun).
Defined.

(** ** More about the graph conversions *)

Section CodecMore.
Context {K : Type} `{EqDecision K}.
Context {G : Type} `{Random G}.
Context (K_leb : K -> K -> bool).

Local Abbreviation edge := (K * K)%type.

(** X24. The graph [convert_to_graph] builds is a well-formed undirected
    adjacency for every edge list: every node is listed once, every
    neighbour of a node is listed once, and the weight of a pair is the
    same read from either end. *)
Theorem convert_to_graph_undirected (l : list edge) :
  let g := convert_to_graph K_leb l in
  NoDup (Dict.keys g) /\
  (forall n nbrs, (n, nbrs) ∈ g -> NoDup (Dict.keys nbrs)) /\
  (forall u v, adj g u v = adj g v u).
Proof. apply graph_ok_from_pandas. Qed.






(** X26. What the script does with an ensemble: every instance that
    [generate_networks] returns has no self-loop, and writing it as a
    weighted graph with [convert_to_graph] loses no edge -- expanding the
    graph again gives, for every pair of nodes, the number of edges the
    instance has between them. *)
Theorem ensemble_instances_convert (g : Dict.t K Z) (n : Z)
    (seed : option Z) (threshold : Z) (rng rng' : G)
    (out : list (list edge)) :
  generate_networks g n seed threshold rng = (Ret (Some out), rng') ->
  Forall (fun r : list edge =>
            Forall (fun e : edge => e.1 <> e.2) r /\
            forall u v,
              multiplicity u v
                (convert_weighted_to_multigraph (convert_to_graph K_leb r))
              = multiplicity u v r) out.
Proof.
  unfold generate_networks. intros Hrun.
  eapply generate_loop_members; [|exact Hrun|constructor].
  intros rng1 rng2 r Hr. split.
  - unfold rewire_network in Hr.
    eapply rewire_loop_no_self_loops; [exact Hr|constructor].
  - intros u v. eapply round_trip_of_instance, Hr.
Qed.

End CodecMore.

Section ExpandMore.
Context {K : Type} `{EqDecision K}.

Local Abbreviation edge := (K * K)%type.

(** X27. [convert_weighted_to_multigraph] expands a well-formed weighted
    graph (unique nodes and neighbours, the same weight on both sides)
    into as many edges between two nodes as their weight says; a pair
    without a weight, or with a weight of zero or below, gets no edge. *)
Theorem multigraph_has_weight_many_edges (g : graph) (u v : K) :
  NoDup (Dict.keys g) ->
  (forall n nbrs, (n, nbrs) ∈ g -> NoDup (Dict.keys nbrs)) ->
  (forall x y, adj g x y = adj g y x) ->
  multiplicity u v (convert_weighted_to_multigraph g)
  = Z.to_nat (default 0 (adj g u v)).
Proof.
  intros Hnd Hin Hsym. unfold convert_weighted_to_multigraph.
  rewrite multiplicity_expand.
  apply (edges_data_weight (fun _ _ => true)); try done;
    apply not_elem_of_nil.
Qed.

End ExpandMore.



Lemma multigraph_has_weight_many_edges_witness :
  let g := convert_to_graph String.leb abc_instance in
  NoDup (Dict.keys g) /\
  (forall n nbrs, (n, nbrs) ∈ g -> NoDup (Dict.keys nbrs)) /\
  (forall x y, adj g x y = adj g y x) /\
  multiplicity "a"%string "b"%string (convert_weighted_to_multigraph g)
  = Z.to_nat (default 0 (adj g "a"%string "b"%string)).
Proof.
  destruct (graph_ok_from_pandas (groupby_count String.leb abc_instance))
    as (Hnd & Hin & Hsym).
  split; [exact Hnd|]. split; [exact Hin|]. split; [exact Hsym|].
  exact (multigraph_has_weight_many_edges _ "a"%string "b"%string
           Hnd Hin Hsym).
Defined.

Lemma ensemble_instances_convert_witness :
  generate_networks abc 3 None default_infinite_loop_threshold
    [1; 1; 0; 0; 1; 1; 1; 0; 1]%nat
  = (Ret (Some [[("a", "b"); ("a", "b"); ("a", "c")];
                [("a", "c"); ("a", "b"); ("a", "b")];
                [("a", "b"); ("a", "c"); ("a", "b")]]%string), []) /\
  Forall (fun r : list (string * string) =>
            Forall (fun e : string * string => e.1 <> e.2) r /\
            forall u v,
              multiplicity u v
                (convert_weighted_to_multigraph
                   (convert_to_graph String.leb r))
              = multiplicity u v r)
    [[("a", "b"); ("a", "b"); ("a", "c")];
     [("a", "c"); ("a", "b"); ("a", "b")];
     [("a", "b"); ("a", "c"); ("a", "b")]]%string.
Proof.
  split; [exact abc_ensemble_run|].
  exact (ensemble_instances_convert String.leb abc 3 None _ _ _ _
           abc_ensemble_run).
Defined.

(** ** The diagram text *)

Section DiagramFacts.
Context {K : Type} `{EqDecision K}.
Context (str : K -> string).

Local Abbreviation edge := (K * K)%type.

Lemma string_app_assoc (a b c : string) :
  (a +:+ b) +:+ c = a +:+ (b +:+ c).
Proof.
  induction a as [|x a IH]; [done|].
  change (String x ((a +:+ b) +:+ c) = String x (a +:+ (b +:+ c))).
  now rewrite IH.
Qed.

Lemma string_app_empty_r (a : string) : a +:+ "" = a.
Proof.
  induction a as [|x a IH]; [done|].
  change (String x (a +:+ "") = String x a). now rewrite IH.
Qed.

(** The loop only appends to what it starts from. *)
Lemma to_d2_items_prefix (items : Dict.t edge Z) :
  forall prefix result : string,
    to_d2_items str items (prefix +:+ result)
    = prefix +:+ to_d2_items str items result.
Proof.
  unfold to_d2_items.
  induction items as [|item items IH]; intros prefix result; simpl; [done|].
  case_decide.
  - rewrite (string_app_assoc prefix result). apply IH.
  - rewrite (string_app_assoc prefix result), (string_app_assoc prefix).
    apply IH.
Qed.

(** X28. [horizontal=True] changes nothing but the head of the text: the
    diagram is the line [direction: right], an empty line, and then the
    text [to_d2] gives without the flag. *)
Theorem to_d2_horizontal (edgelist : list edge) :
  to_d2 str edgelist true
  = ("direction: right" +:+ newline +:+ newline)
    +:+ to_d2 str edgelist false.
Proof.
  unfold to_d2.
  change ("" +:+ ("direction: right" +:+ newline +:+ newline))%string
    with (("direction: right" +:+ newline +:+ newline) +:+ "")%string.
  apply to_d2_items_prefix.
Qed.

Lemma Counter_from_distinct (l : list edge) :
  forall c : Dict.t edge Z,
    NoDup l ->
    (forall e, e ∈ l -> e ∉ Dict.keys c) ->
    foldl (fun c x => Dict.set x (default 0 (Dict.get x c) + 1) c) c l
    = c ++ map (fun e => (e, 1)) l.
Proof.
  induction l as [|e l IH]; intros c Hnd Hfresh; simpl.
  - now rewrite app_nil_r.
  - apply NoDup_cons in Hnd as [He Hnd].
    assert (e ∉ Dict.keys c) as Hec by (apply Hfresh; left).
    rewrite set_absent by done.
    rewrite (proj2 (get_None_keys e c) Hec). simpl.
    rewrite IH; [now rewrite <- app_assoc|done|].
    intros e' He'. unfold Dict.keys. rewrite map_app, elem_of_app.
    intros [Hin|Hin].
    + apply (Hfresh e'); [now right|exact Hin].
    + simpl in Hin. apply list_elem_of_singleton in Hin. congruence.
Qed.

Lemma to_d2_items_plain (l : list edge) :
  forall result : string,
    to_d2_items str (map (fun e => (e, 1)) l) result
    = result +:+ foldr (fun e s => plain_line str e +:+ s) "" l.
Proof.
  unfold to_d2_items.
  induction l as [|e l IH]; intros result; simpl.
  - now rewrite string_app_empty_r.
  - rewrite IH. unfold plain_line. now rewrite !string_app_assoc.
Qed.

(** X29. For an edge list without a repeated edge, [to_d2] writes one
    line [u -- v] per edge, in the order of the list, and no count; edges
    that differ in orientation only are different edges here. *)
Theorem to_d2_simple (edgelist : list edge) :
  NoDup edgelist ->
  to_d2 str edgelist false
  = foldr (fun e s => plain_line str e +:+ s) "" edgelist.
Proof.
  intros Hnd. unfold to_d2, Counter.
  rewrite Counter_from_distinct; [|done|intros; apply not_elem_of_nil].
  simpl app. now rewrite to_d2_items_plain.
Qed.

End DiagramFacts.

(** The doctest of [to_d2]. *)
Example to_d2_doctest :
  to_d2 id
    [("a", "b"); ("a", "d"); ("b", "c"); ("c", "f"); ("d", "e");
     ("e", "f"); ("e", "f"); ("f", "g"); ("f", "h")]%string false
  = ("a -- b" +:+ newline +:+ "a -- d" +:+ newline +:+ "b -- c" +:+ newline
     +:+ "c -- f" +:+ newline +:+ "d -- e" +:+ newline
     +:+ "e -- f : 2 {style: {font-size: 24; bold: true}}" +:+ newline
     +:+ "f -- g" +:+ newline +:+ "f -- h" +:+ newline)%string.
Proof. vm_compute. reflexivity. Qed.

Lemma to_d2_simple_witness :
  NoDup [("a", "b"); ("b", "a")]%string /\
  to_d2 id [("a", "b"); ("b", "a")]%string false
  = foldr (fun e s => plain_line id e +:+ s) ""
      [("a", "b"); ("b", "a")]%string.
Proof.
  assert (NoDup [("a", "b"); ("b", "a")]%string) as Hnd.
  { refine (bool_decide_unpack _ _). vm_compute. exact I. }
  split; [exact Hnd|].
  exact (to_d2_simple id _ Hnd).
Defined.

